(** * The serialized-data-model documentation generator of OpenTimelineIO

    A shallow embedding of
    [src/py-opentimelineio/opentimelineio/console/autogen_serialized_datamodel.py]:
    the model extractor ([_generate_model_for_module], [_generate_model]),
    the namespace remapping ([_search_mod_recursively],
    [_remap_to_python_modules]) and the renderer ([_write_documentation]).

    Python objects with identity (modules, classes) are addresses into a
    heap; dictionaries are insertion-ordered association lists, as Python's
    are; the [set] of visited modules is a [gset]; a [StringIO] buffer is the
    list of the strings written to it. *)

From stdpp Require Import base gmap sets list strings sorting.
From Stdlib Require Import Ascii Sorting.Sorted.

Open Scope string_scope.
Open Scope list_scope.
Open Scope nat_scope.

(** ** Python values *)

(** The values that flow through the generator: [None], a [str], and any
    other JSON value, kept with the text [str.format] prints for it. *)
Inductive pyval : Type :=
  | PyNone
  | PyStr (s : string)
  | PyOther (text : string).

#[global] Instance pyval_eq_dec : EqDecision pyval.
Proof. solve_decision. Defined.

(** What [str.format] substitutes for a value. *)
Definition py_format (v : pyval) : string :=
  match v with
  | PyNone => "None"
  | PyStr s => s
  | PyOther text => text
  end.

(** ** Exceptions and outcomes *)

(** [AttributeError] is caught where it is raised; the only exception that
    can leave a function of this file is the [KeyError] of a subscript. *)
Inductive pyexn : Type :=
  | KeyError (key : string)
  | OtherError (type_name : string).  (* any other exception, by its type *)

Inductive outcome (A : Type) : Type :=
  | Done (a : A)
  | Raised (e : pyexn)
  | OutOfFuel.
Arguments Done {A} a.
Arguments Raised {A} e.
Arguments OutOfFuel {A}.

#[global] Instance outcome_ret : MRet outcome := fun A a => Done a.
#[global] Instance outcome_bind : MBind outcome := fun A B f o =>
  match o with
  | Done a => f a
  | Raised e => Raised e
  | OutOfFuel => OutOfFuel
  end.

(** The call returned or raised: it did not run forever. *)
Definition terminated {A} (o : outcome A) : Prop := o ≠ OutOfFuel.

(** The call returned a value. *)
Definition returns {A} (o : outcome A) : Prop := ∃ a, o = Done a.

(** A [for] loop whose body threads a state and may raise. *)
Fixpoint for_each {A S} (body : A → S → outcome S) (l : list A) (s : S)
  : outcome S :=
  match l with
  | [] => Done s
  | x :: l' => s' ← body x s; for_each body l' s'
  end.

(** ** Insertion-ordered dictionaries *)

Section dict.
Context {K V : Type} `{EqDecision K}.

Fixpoint dict_get (k : K) (d : list (K * V)) : option V :=
  match d with
  | [] => None
  | (k', v) :: d' => if decide (k = k') then Some v else dict_get k d'
  end.

(** [d[k] = v]: an existing key keeps its position. *)
Fixpoint dict_set (k : K) (v : V) (d : list (K * V)) : list (K * V) :=
  match d with
  | [] => [(k, v)]
  | (k', v') :: d' =>
      if decide (k = k') then (k, v) :: d' else (k', v') :: dict_set k v d'
  end.

Definition dict_keys (d : list (K * V)) : list K := d.*1.

(** [k in d] *)
Definition dict_mem (k : K) (d : list (K * V)) : bool :=
  bool_decide (k ∈ dict_keys d).

(** [d.update(other)] *)
Definition dict_update (d other : list (K * V)) : list (K * V) :=
  fold_left (fun acc kv => dict_set kv.1 kv.2 acc) other d.
End dict.

(** [modules.setdefault(k, []).append(x)] *)
Definition setdefault_append {K A} `{EqDecision K}
    (k : K) (x : A) (d : list (K * list A)) : list (K * list A) :=
  match dict_get k d with
  | Some l => dict_set k (l ++ [x]) d
  | None => dict_set k [x] d
  end.

(** ** Strings *)

(** [s.split('.')] *)
Fixpoint split_dot (s : string) : list string :=
  match s with
  | EmptyString => [""]
  | String c rest =>
      if decide (c = "."%char) then "" :: split_dot rest
      else match split_dot rest with
           | [] => [String c ""]
           | piece :: pieces => String c piece :: pieces
           end
  end.

(** [".".join(s.split('.')[:2])] *)
Definition first_two_segments (s : string) : string :=
  String.concat "." (take 2 (split_dot s)).

(** ** [sorted(l, key=...)]: a stable sort on string keys *)

Section sorting.
Context {A : Type} (key : A → string).

Fixpoint insert_by (x : A) (l : list A) : list A :=
  match l with
  | [] => [x]
  | y :: l' =>
      if String.leb (key x) (key y) then x :: y :: l'
      else y :: insert_by x l'
  end.

Fixpoint sorted_by (l : list A) : list A :=
  match l with
  | [] => []
  | x :: l' => insert_by x (sorted_by l')
  end.
End sorting.


(** ** The object model the generator inspects *)

(** Modules and classes are objects with identity: an address. *)
Definition mod_id := nat.
Definition class_id := nat.

(** A value of a module's [__dict__]. *)
Inductive thing : Type :=
  | Mod (m : mod_id)
  | Cls (c : class_id)
  | Other.

#[global] Instance thing_eq_dec : EqDecision thing.
Proof. solve_decision. Defined.

(** An attribute found by [getattr]: whether it is a [property], and what
    [inspect.getdoc] returns for it. *)
Record pyattr : Type := {
  attr_is_property : bool;
  attr_doc : pyval;
}.

Record pymodule : Type := {
  mod_name : string;      (* mod.__name__ *)
  mod_str : string;       (* str(mod) *)
  mod_dict : list thing;  (* mod.__dict__.values(), in order *)
}.

Record pyclass : Type := {
  cl_module : string;                    (* cl.__module__ *)
  cl_name : string;                      (* cl.__name__ *)
  cl_doc : pyval;                        (* cl.__doc__ *)
  cl_str : string;                       (* str(cl) *)
  cl_serializable : bool;  (* issubclass(cl, otio.core.SerializableObject) *)
  (* json.loads(otio.adapters.otio_json.write_to_string(cl())), in order *)
  cl_field_dict : list (string * pyval);
  (* what that expression raises, when [cl()], the serializer or the parser
     raises instead of returning *)
  cl_serialize_raises : option pyexn;
  cl_attrs : list (string * pyattr);       (* getattr(cl, name) *)
  cl_inst_attrs : list (string * pyattr);  (* getattr(cl(), name) *)
}.

(** The interpreter state the script runs in: the heap of modules and of
    classes, and the objects the script names. *)
Record world : Type := {
  heap_modules : list pymodule;
  heap_classes : list pyclass;
  otio : mod_id;
  otio_schema : mod_id;
  otio_opentime : mod_id;
  otio_core : mod_id;
  otio__otio : mod_id;
  otio__opentime : mod_id;
  SerializableObject : class_id;
  UnknownSchema : class_id;
  TestObject : class_id;
  RationalTime : class_id;
  TimeRange : class_id;
  TimeTransform : class_id;
}.

Definition empty_module : pymodule :=
  {| mod_name := ""; mod_str := ""; mod_dict := [] |}.

Definition empty_class : pyclass :=
  {| cl_module := ""; cl_name := ""; cl_doc := PyNone; cl_str := "";
     cl_serializable := false; cl_field_dict := [];
     cl_serialize_raises := None;
     cl_attrs := []; cl_inst_attrs := [] |}.

(** Dereferencing; an address outside the heap reads as an empty object. *)
Definition module_at (W : world) (m : mod_id) : pymodule :=
  default empty_module (heap_modules W !! m).

Definition class_at (W : world) (c : class_id) : pyclass :=
  default empty_class (heap_classes W !! c).

(** [getattr(cl, name)]; [None] is [AttributeError]. *)
Definition getattr_class (W : world) (cl : class_id) (name : string)
  : option pyattr :=
  dict_get name (cl_attrs (class_at W cl)).

(** [getattr(cl(), name)] *)
Definition getattr_instance (W : world) (cl : class_id) (name : string)
  : option pyattr :=
  dict_get name (cl_inst_attrs (class_at W cl)).

(** ** What the extractor does to the outside, in order *)

Inductive event : Type :=
  | EvVisit (m : mod_id)          (* _generate_model_for_module(m, ...) entered *)
  | EvInstantiate (cl : class_id) (* cl() *)
  | EvSerialize (cl : class_id)   (* write_to_string of an instance of cl *)
  | EvStderr (text : string).     (* sys.stderr.write(text) *)

#[global] Instance event_eq_dec : EqDecision event.
Proof. solve_decision. Defined.

(** ** Constants of the script *)

Definition SKIP_CLASSES (W : world) : list class_id :=
  [SerializableObject W; UnknownSchema W; TestObject W].

Definition SKIP_KEYS : list string := ["OTIO_SCHEMA"; "children"].

Definition SKIP_MODULES : list string :=
  ["opentimelineio.schemadef"; "opentimelineio._otio";
   "opentimelineio._opentime"].

(** ** [PROP_FETCHERS] *)

(** A fetcher returns the events it caused and its value; [None] is
    [AttributeError]. *)
Definition fetcher := world → class_id → string → list event * option pyval.

(** [lambda cl, k: inspect.getdoc(getattr(cl, k))] *)
Definition fetch_property : fetcher := fun W cl k =>
  ([], attr_doc <$> getattr_class W cl k).

(** [lambda cl, k: inspect.getdoc(getattr(cl, "_" + k))] *)
Definition fetch_private_property : fetcher := fun W cl k =>
  ([], attr_doc <$> getattr_class W cl ("_" +:+ k)).

(** [x and "" or ""] *)
Definition and_empty_or_empty (x : pyval) : pyval := PyStr "".

(** [lambda cl, k: inspect.getdoc(getattr(cl(), k)) and "" or ""] *)
Definition fetch_instance_attribute : fetcher := fun W cl k =>
  ([EvInstantiate cl],
   (fun a => and_empty_or_empty (attr_doc a)) <$> getattr_instance W cl k).

Definition PROP_FETCHERS : list fetcher :=
  [fetch_property; fetch_private_property; fetch_instance_attribute].

(** The loop [for fetcher in PROP_FETCHERS: try: ... break / except
    AttributeError: pass], for one key.  Each round first evaluates
    [isinstance(getattr(cl, k), property)] inside the [try]; the fetcher is
    called only when that holds.  The result is the value stored as
    [model[cl][k]], or [None] when the loop ran to its [else]. *)
Fixpoint try_fetchers (W : world) (cl : class_id) (k : string)
    (fetchers : list fetcher) : list event * option pyval :=
  match fetchers with
  | [] => ([], None)
  | fetch :: rest =>
      match getattr_class W cl k with
      | None => try_fetchers W cl k rest
      | Some a =>
          if attr_is_property a then
            match fetch W cl k with
            | (evs, Some v) => (evs, Some v)
            | (evs, None) =>
                let '(evs', r) := try_fetchers W cl k rest in (evs ++ evs', r)
            end
          else ([], Some (PyStr ""))
      end
  end.

Definition could_not_fetch (k : string) : string :=
  "ERROR: could not fetch property: " +:+ k.

(** The body of [for k in field_dict.keys()]. *)
Definition extract_key (W : world) (cl : class_id)
    (acc : list (string * pyval) * list event) (k : string)
  : list (string * pyval) * list event :=
  let '(entry, trace) := acc in
  if bool_decide (k ∈ SKIP_KEYS) then (entry, trace)
  else
    match try_fetchers W cl k PROP_FETCHERS with
    | (evs, Some v) => (dict_set k v entry, trace ++ evs)
    | (evs, None) => (entry, trace ++ evs ++ [EvStderr (could_not_fetch k)])
    end.

(** The body of [for cl in serializable_classes] after the [SKIP_CLASSES]
    test: the value of [model[cl]] and the events caused. *)
Definition extract_class (W : world) (cl : class_id)
  : outcome (list (string * pyval) * list event) :=
  match cl_serialize_raises (class_at W cl) with
  | Some e => Raised e
  | None =>
      let field_dict := cl_field_dict (class_at W cl) in
      let '(entry, trace) :=
        fold_left (extract_key W cl) (dict_keys field_dict)
                  ([], [EvInstantiate cl; EvSerialize cl]) in
      match dict_get "OTIO_SCHEMA" field_dict with
      | Some label => Done (dict_set "OTIO_SCHEMA" label entry, trace)
      | None => Raised (KeyError "OTIO_SCHEMA")
      end
  end.

(** ** [_generate_model_for_module] *)

(** The model: class -> field key -> documentation (and the schema label
    under ["OTIO_SCHEMA"]). *)
Definition model_t := list (class_id * list (string * pyval)).

Record gen_state : Type := {
  st_classes : model_t;       (* the dict [classes] *)
  st_modules : gset mod_id;   (* the set [modules] *)
  st_trace : list event;
}.

(** The filter of the comprehension [serializable_classes]:
    [isclass(thing) and thing not in classes and issubclass(thing, ...)
     or thing in (RationalTime, TimeRange, TimeTransform)]. *)
Definition is_serializable_class (W : world) (classes : model_t)
    (t : thing) : bool :=
  match t with
  | Cls c =>
      (negb (dict_mem c classes) && cl_serializable (class_at W c))
      || bool_decide (c ∈ [RationalTime W; TimeRange W; TimeTransform W])
  | Mod _ | Other => false
  end.

Definition class_of_thing (t : thing) : option class_id :=
  match t with Cls c => Some c | _ => None end.

Definition module_of_thing (t : thing) : option mod_id :=
  match t with Mod m => Some m | _ => None end.

Definition serializable_classes (W : world) (classes : model_t)
    (m : mod_id) : list class_id :=
  omap class_of_thing
       (filter (fun t => is_serializable_class W classes t = true)
               (mod_dict (module_at W m))).

(** The body of [for cl in serializable_classes], on the local dict [model]. *)
Definition extract_into (W : world) (cl : class_id)
    (acc : model_t * list event) : outcome (model_t * list event) :=
  let '(model, trace) := acc in
  if bool_decide (cl ∈ SKIP_CLASSES W) then Done (model, trace)
  else
    '(entry, evs) ← extract_class W cl;
    Done (dict_set cl entry model, trace ++ evs).

(** The filter of the generator sorted into [new_mods]. *)
Definition is_new_module (W : world) (modules : gset mod_id) (t : thing)
  : bool :=
  match t with
  | Mod m =>
      bool_decide (m ∉ modules)
      && forallb (fun t => negb (String.prefix t (mod_name (module_at W m))))
                 SKIP_MODULES
  | Cls _ | Other => false
  end.

Definition new_mods (W : world) (modules : gset mod_id) (m : mod_id)
  : list mod_id :=
  sorted_by (fun m' => mod_str (module_at W m'))
    (omap module_of_thing
          (filter (fun t => is_new_module W modules t = true)
                  (mod_dict (module_at W m)))).

(** Everything the call does before it recurses. *)
Definition visit_module (W : world) (m : mod_id) (st : gen_state)
  : outcome gen_state :=
  let modules := {[m]} ∪ st_modules st in
  '(model, trace) ←
    for_each (extract_into W) (serializable_classes W (st_classes st) m)
             ([], st_trace st ++ [EvVisit m]);
  Done {| st_classes := dict_update (st_classes st) model;
          st_modules := modules;
          st_trace := trace |}.

Fixpoint _generate_model_for_module (W : world) (fuel : nat) (m : mod_id)
    (st : gen_state) : outcome gen_state :=
  match fuel with
  | 0 => OutOfFuel
  | S fuel' =>
      st' ← visit_module W m st;
      for_each (_generate_model_for_module W fuel')
               (new_mods W (st_modules st') m) st'
  end.

Definition initial_state : gen_state :=
  {| st_classes := []; st_modules := ∅; st_trace := [] |}.

(** Fuel that always suffices: two units for each namespace of the heap,
    and two more. *)
Definition enough_fuel (W : world) : nat := 2 * length (heap_modules W) + 2.

(** [_generate_model]; the trace is kept next to the returned [classes]. *)
Definition _generate_model (W : world) : outcome gen_state :=
  _generate_model_for_module W (enough_fuel W) (otio W) initial_state.


(** ** [_search_mod_recursively] and [_remap_to_python_modules] *)

Definition child_modules (W : world) (m : mod_id) : list mod_id :=
  omap module_of_thing (mod_dict (module_at W m)).

(** The loop [for submod in child_modules], with its early [return]; [rec]
    is the recursive call.  The set [already_searched] is shared and grows. *)
Fixpoint search_children
    (rec : mod_id → gset mod_id → outcome (option string * gset mod_id))
    (subs : list mod_id) (already_searched : gset mod_id)
  : outcome (option string * gset mod_id) :=
  match subs with
  | [] => Done (None, already_searched)
  | submod :: rest =>
      if bool_decide (submod ∈ already_searched)
      then search_children rec rest already_searched
      else
        '(result, searched) ← rec submod ({[submod]} ∪ already_searched);
        match result with
        | Some name => Done (Some name, searched)
        | None => search_children rec rest searched
        end
  end.

Fixpoint _search_mod_recursively (W : world) (fuel : nat) (cl : class_id)
    (mod_to_search : mod_id) (already_searched : gset mod_id)
  : outcome (option string * gset mod_id) :=
  match fuel with
  | 0 => OutOfFuel
  | S fuel' =>
      if bool_decide (Cls cl ∈ mod_dict (module_at W mod_to_search))
      then Done (Some (mod_name (module_at W mod_to_search)), already_searched)
      else search_children (_search_mod_recursively W fuel' cl)
                           (child_modules W mod_to_search) already_searched
  end.

Definition SEARCH_MODULES (W : world) : list mod_id :=
  [otio_schema W; otio_opentime W; otio_core W].

Definition IGNORE_MODS (W : world) : gset mod_id :=
  {[otio__otio W; otio__opentime W]}.

(** Fuel that always suffices: one unit for each namespace of the heap,
    and two more. *)
Definition search_fuel (W : world) : nat := length (heap_modules W) + 2.

(** The loop [for mod in SEARCH_MODULES]; the one set [IGNORE_MODS] is
    passed to every search and keeps what earlier searches added. *)
Fixpoint search_each (W : world) (cl : class_id) (mods : list mod_id)
    (searched : gset mod_id) : outcome (option string) :=
  match mods with
  | [] => Done None
  | m :: rest =>
      '(result, searched') ←
        _search_mod_recursively W (search_fuel W) cl m searched;
      match result with
      | Some name => Done (Some name)
      | None => search_each W cl rest searched'
      end
  end.

(** [inspect.getmodule(cl)] is [sys.modules[cl.__module__]], the module of
    that name. *)
Definition _remap_to_python_modules (W : world) (cl : class_id)
  : outcome string :=
  result ← search_each W cl (SEARCH_MODULES W) (IGNORE_MODS W);
  match result with
  | Some name => Done name
  | None => Done (cl_module (class_at W cl))
  end.

(** ** [_write_documentation] *)

(** One [write] to a [StringIO]: the template and its arguments. *)
Inductive chunk : Type :=
  | DOCUMENT_HEADER
  | FIELDS_ONLY_HEADER
  | MODULE_HEADER (modname : string)
  | CLASS_HEADER_WITH_DOCS (classname : pyval) (modpath : string)
                           (docstring : pyval)
  | CLASS_HEADER_ONLY_FIELDS (classname : pyval)
  | PROP_HEADER (propkey : string) (prophelp : pyval)
  | PROP_HEADER_NO_HELP (propkey : string).

Definition nl : string := String (ascii_of_nat 10) "".

Definition lines (l : list string) : string := String.concat nl l.

(** The text a write appends: the template, formatted. *)
Definition chunk_text (c : chunk) : string :=
  match c with
  | DOCUMENT_HEADER => lines [
      "# Serialized Data Documentation";
      "";
      "This documents all the OpenTimelineIO classes that serialize to and from JSON,";
      "omitting SchemaDef plugins. This document is automatically generated by running:";
      "";
      "`src/py-opentimelineio/opentimelineio/console/autogen_serialized_datamodel.py`";
      "";
      "or by running:";
      "";
      "`make doc-model`";
      "";
      "It is part of the unit tests suite and should be updated whenever the schema";
      "changes.  If it needs to be updated and this file regenerated, run:";
      "";
      "`make doc-model-update`";
      "";
      "# Class Documentation";
      "";
      ""]
  | FIELDS_ONLY_HEADER => lines [
      "# Serialized Data (Fields Only)";
      "";
      "This document is a list of all the OpenTimelineIO classes that serialize to and";
      "from JSON, omitting plugins classes and docstrings.";
      "";
      "This document is automatically generated by running:";
      "";
      "`src/py-opentimelineio/opentimelineio/console/autogen_serialized_datamodel.py`";
      "";
      "or by running:";
      "";
      "`make doc-model`";
      "";
      "It is part of the unit tests suite and should be updated whenever the schema";
      "changes.  If it needs to be updated and this file regenerated, run:";
      "";
      "`make doc-model-update`";
      "";
      "";
      "# Classes";
      "";
      ""]
  | MODULE_HEADER modname => lines [
      "";
      "## Module: " +:+ modname;
      ""]
  | CLASS_HEADER_WITH_DOCS classname modpath docstring => lines [
      "";
      "### " +:+ py_format classname;
      "";
      "*full module path*: `" +:+ modpath +:+ "`";
      "";
      "*documentation*:";
      "";
      "```";
      py_format docstring;
      "```";
      "";
      "parameters:";
      ""]
  | CLASS_HEADER_ONLY_FIELDS classname => lines [
      "";
      "### " +:+ py_format classname;
      "";
      "parameters:";
      ""]
  | PROP_HEADER propkey prophelp => lines [
      "- *" +:+ propkey +:+ "*: " +:+ py_format prophelp;
      ""]
  | PROP_HEADER_NO_HELP propkey => lines [
      "- *" +:+ propkey +:+ "*";
      ""]
  end.

(** [StringIO.getvalue()] *)
Definition getvalue (buffer : list chunk) : string :=
  String.concat "" (chunk_text <$> buffer).

(** The two buffers [md_with_helpstrings] and [md_only_fields]. *)
Definition buffers := (list chunk * list chunk)%type.

Definition OPAQUE_MODULE_NAMES : list string :=
  ["opentimelineio._opentime"; "opentimelineio._otio"].

(** The namespace a class is listed under: [modobj] after the [if]. *)
Definition effective_namespace (W : world) (cl : class_id) : outcome string :=
  let modobj := cl_module (class_at W cl) in
  if bool_decide (modobj ∈ OPAQUE_MODULE_NAMES)
  then _remap_to_python_modules W cl
  else Done modobj.

(** The loop [for cl in model] that fills the local dict [modules]. *)
Definition group_classes (W : world) (model : model_t)
  : outcome (list (string * list class_id)) :=
  for_each (fun cl modules =>
              modobj ← effective_namespace W cl;
              Done (setdefault_append modobj cl modules))
           (dict_keys model) [].

(** The body of [for key, helpstr in sorted(model[cl].items())]. *)
Definition write_prop (b : buffers) (item : string * pyval) : buffers :=
  let '(key, helpstr) := item in
  if bool_decide (key ∈ SKIP_KEYS) then b
  else (b.1 ++ [PROP_HEADER key helpstr], b.2 ++ [PROP_HEADER_NO_HELP key]).

(** [sorted(d.items())]: the keys of a dict differ, so the tuples are
    ordered by their keys. *)
Definition sorted_items (d : list (string * pyval)) : list (string * pyval) :=
  sorted_by fst d.

(** The body of [for cl in sorted(modules[module_list], key=...)]. *)
Definition write_class (W : world) (model : model_t) (this_mod : string)
    (cl : class_id) (b : buffers) : outcome buffers :=
  match dict_get cl model with
  | None => Raised (KeyError (cl_str (class_at W cl)))
  | Some entry =>
      match dict_get "OTIO_SCHEMA" entry with
      | None => Raised (KeyError "OTIO_SCHEMA")
      | Some label =>
          let modname := this_mod in
          let b' :=
            (b.1 ++ [CLASS_HEADER_WITH_DOCS label
                       (modname +:+ "." +:+ cl_name (class_at W cl))
                       (cl_doc (class_at W cl))],
             b.2 ++ [CLASS_HEADER_ONLY_FIELDS label]) in
          Done (fold_left write_prop (sorted_items entry) b')
      end
  end.

(** The body of [for module_list in sorted(modules)]; the state carries
    [CURRENT_MODULE]. *)
Definition write_group (W : world) (model : model_t)
    (group : string * list class_id) (st : option string * buffers)
  : outcome (option string * buffers) :=
  let '(module_list, members) := group in
  let '(CURRENT_MODULE, b) := st in
  let this_mod := first_two_segments module_list in
  let '(CURRENT_MODULE, b) :=
    if bool_decide (Some this_mod ≠ CURRENT_MODULE)
    then (Some this_mod,
          (b.1 ++ [MODULE_HEADER this_mod], b.2 ++ [MODULE_HEADER this_mod]))
    else (CURRENT_MODULE, b) in
  b' ← for_each (write_class W model this_mod)
                (sorted_by (fun cl => cl_str (class_at W cl)) members) b;
  Done (CURRENT_MODULE, b').

(** [sorted(modules)], each key with its list [modules[module_list]]: the
    groups in writing order.  The keys of a dict differ, so the items are
    ordered by their keys. *)
Definition sorted_groups (modules : list (string * list class_id))
  : list (string * list class_id) :=
  sorted_by fst modules.

(** The writes to the two buffers. *)
Definition write_chunks (W : world) (model : model_t) : outcome buffers :=
  modules ← group_classes W model;
  '(_, b) ← for_each (write_group W model) (sorted_groups modules)
                     (None, ([DOCUMENT_HEADER], [FIELDS_ONLY_HEADER]));
  Done b.

Definition _write_documentation (W : world) (model : model_t)
  : outcome (string * string) :=
  b ← write_chunks W model;
  Done (getvalue b.1, getvalue b.2).

(** [generate_and_write_documentation] *)
Definition generate_and_write_documentation (W : world)
  : outcome (string * string) :=
  st ← _generate_model W;
  _write_documentation W (st_classes st).


(** ** [main] *)

(** The parsed command line. *)
Record arguments : Type := {
  args_dryrun : bool;           (* args.dryrun *)
  args_output : option string;  (* args.output, [None] by default *)
}.

(** What [main] acts on: the files, by path, and what was printed. *)
Record os_state : Type := {
  os_files : gmap string string;
  os_stdout : list string;
}.

(** What the operating system answers: whether [open(path, 'w')] succeeds,
    and the name [NamedTemporaryFile] picks, before the requested suffix. *)
Record os_env : Type := {
  env_writable : string → bool;
  env_tmp_stem : string;
}.

(** What can leave [main]: an exception of the pipeline, the [OSError] of an
    [open], the [ValueError] of unpacking one value into two names. *)
Inductive main_exn : Type :=
  | Propagated (e : pyexn)
  | OSError (path : string)
  | ValueError.

Inductive main_result : Type :=
  | Returned
  | Uncaught (e : main_exn)
  | Diverged.

(** The split at the last ['.'], if there is one. *)
Fixpoint rsplit_last_dot (s : string) : option (string * string) :=
  match s with
  | EmptyString => None
  | String c rest =>
      match rsplit_last_dot rest with
      | Some (before, after) => Some (String c before, after)
      | None => if decide (c = "."%char) then Some ("", rest) else None
      end
  end.

(** [s.rsplit('.', 1)] *)
Definition rsplit_dot_1 (s : string) : list string :=
  match rsplit_last_dot s with
  | Some (before, after) => [before; after]
  | None => [s]
  end.

(** [prefix, suffix = output.rsplit('.', 1)] and
    [output_only_fields = prefix + "-only-fields." + suffix]; [None] is the
    [ValueError] of the unpacking. *)
Definition output_only_fields (output : string) : option string :=
  match rsplit_dot_1 output with
  | [prefix; suffix] => Some (prefix +:+ "-only-fields." +:+ suffix)
  | _ => None
  end.

(** [print(text)] *)
Definition print (text : string) (os : os_state) : os_state :=
  {| os_files := os_files os; os_stdout := os_stdout os ++ [text] |}.

(** [with open(path, 'w') as fo: fo.write(text)]; [None] is the [OSError]
    of [open]. *)
Definition write_file (env : os_env) (path text : string) (os : os_state)
  : option os_state :=
  if env_writable env path
  then Some {| os_files := <[path := text]> (os_files os);
               os_stdout := os_stdout os |}
  else None.

(** The name of [tempfile.NamedTemporaryFile('w',
    suffix="otio_serialized_schema.md", delete=False)]. *)
Definition temporary_name (env : os_env) : string :=
  env_tmp_stem env +:+ "otio_serialized_schema.md".

(** Creating it leaves an empty file of that name. *)
Definition create_temporary (env : os_env) (os : os_state) : os_state :=
  {| os_files := <[temporary_name env := ""]> (os_files os);
     os_stdout := os_stdout os |}.

(** [not output] *)
Definition not_output (output : option string) : bool :=
  match output with
  | None | Some "" => true
  | Some _ => false
  end.

(** The value of [output] after [if not output: ...], and the state. *)
Definition choose_output (env : os_env) (args : arguments) (os : os_state)
  : string * os_state :=
  if not_output (args_output args)
  then (temporary_name env, create_temporary env os)
  else (default "" (args_output args), os).

Definition wrote_documentation (output only : string) : string :=
  "wrote documentation to " +:+ output +:+ " and " +:+ only.

(** [main], after [args = _parsed_args()]. *)
Definition main (W : world) (env : os_env) (args : arguments)
    (os : os_state) : os_state * main_result :=
  match generate_and_write_documentation W with
  | OutOfFuel => (os, Diverged)
  | Raised e => (os, Uncaught (Propagated e))
  | Done (with_docs, without_docs) =>
      if args_dryrun args then (print with_docs os, Returned)
      else
        let '(output, os) := choose_output env args os in
        match write_file env output with_docs os with
        | None => (os, Uncaught (OSError output))
        | Some os1 =>
            match output_only_fields output with
            | None => (os1, Uncaught ValueError)
            | Some only =>
                match write_file env only without_docs os1 with
                | None => (os1, Uncaught (OSError only))
                | Some os2 =>
                    (print (wrote_documentation output only) os2, Returned)
                end
            end
        end
  end.


(** * Vocabulary of the properties *)

(** ** Strings and order *)

(** The string has no ['.']. *)
Fixpoint dot_free (s : string) : Prop :=
  match s with
  | EmptyString => True
  | String c rest => c ≠ "."%char ∧ dot_free rest
  end.

(** The order of Python's [str]: by code point, the shorter string first. *)
Definition str_le (a b : string) : Prop := String.leb a b = true.

(** Two elements are in the order of their keys. *)
Definition key_le {A} (key : A → string) (x y : A) : Prop :=
  str_le (key x) (key y).

(** ** The extractor *)

(** What the lookup loop yields, by cases on [getattr(cl, k)]. *)
Definition class_level_doc (W : world) (cl : class_id) (k : string)
  : option pyval :=
  match getattr_class W cl k with
  | None => None
  | Some a => Some (if attr_is_property a then attr_doc a else PyStr "")
  end.

(** What the loop over [serializable_classes] guarantees of the local dict
    [model] and of the trace. *)
Definition extracted_from (W : world) (trace0 : list event)
    (acc : model_t * list event) : Prop :=
  (∀ cl entry, (cl, entry) ∈ acc.1 →
     (cl ∉ SKIP_CLASSES W) ∧ ∃ evs, extract_class W cl = Done (entry, evs))
  ∧ (∀ e, e ∈ acc.2 →
       e ∈ trace0
       ∨ (∃ cl, (cl ∉ SKIP_CLASSES W) ∧ (e = EvInstantiate cl ∨ e = EvSerialize cl))
       ∨ ∃ text, e = EvStderr text).

(** The state invariant: every recorded class is off the skip list and is
    recorded with what [extract_class] computes for it, and no class of the
    skip list was instantiated or serialized. *)
Definition good_state (W : world) (st : gen_state) : Prop :=
  (∀ cl entry, (cl, entry) ∈ st_classes st →
     (cl ∉ SKIP_CLASSES W) ∧ ∃ evs, extract_class W cl = Done (entry, evs))
  ∧ (∀ cl, cl ∈ SKIP_CLASSES W →
       (EvInstantiate cl ∉ st_trace st) ∧ (EvSerialize cl ∉ st_trace st)).

(** The addresses of the heap: the namespaces there are. *)
Definition all_modules (W : world) : gset mod_id :=
  list_to_set (seq 0 (length (heap_modules W))).

(** ** The namespace graph *)

(** [b] is a member of [a]: a value of its [__dict__]. *)
Definition member (W : world) (a b : mod_id) : Prop :=
  Mod b ∈ mod_dict (module_at W a).

(** Reachable through members, recursively, without entering a namespace
    of [avoid]. *)
Definition reachable (W : world) (avoid : gset mod_id) : relation mod_id :=
  rtc (fun a b => member W a b ∧ b ∉ avoid).

(** The class is a value of the namespace's [__dict__]. *)
Definition holds (W : world) (m : mod_id) (cl : class_id) : Prop :=
  Cls cl ∈ mod_dict (module_at W m).

#[global] Instance holds_dec W m cl : Decision (holds W m cl).
Proof. unfold holds. apply _. Defined.

(** What a search that returns has found: [None] and a larger set, or the
    name of a namespace that holds the class, reached from the start, and
    that is the start or was not in the set. *)
Definition search_result (W : world) (cl : class_id) (m : mod_id)
    (S : gset mod_id) (r : option string) (S' : gset mod_id) : Prop :=
  S ⊆ S'
  ∧ ∀ name, r = Some name →
      ∃ x, reachable W S m x ∧ holds W x cl
           ∧ name = mod_name (module_at W x) ∧ (x = m ∨ x ∉ S).

(** ** The order of the search *)

(** The namespaces the loop over [subs] comes to, in order, and the set it
    leaves: each member namespace that is not in the set is added to it and
    walked, by [rec], before the next one is looked at. *)
Fixpoint walk_children
    (rec : mod_id → gset mod_id → list mod_id * gset mod_id)
    (subs : list mod_id) (S : gset mod_id) : list mod_id * gset mod_id :=
  match subs with
  | [] => ([], S)
  | c :: rest =>
      if bool_decide (c ∈ S) then walk_children rec rest S
      else
        let '(l, S1) := rec c ({[c]} ∪ S) in
        let '(l', S2) := walk_children rec rest S1 in
        (l ++ l', S2)
  end.

(** The depth-first walk from [m]: [m] first, then the walks from its
    member namespaces, in the order of its [__dict__]. *)
Fixpoint walk (W : world) (fuel : nat) (m : mod_id) (S : gset mod_id)
  : list mod_id * gset mod_id :=
  match fuel with
  | 0 => ([], S)
  | Datatypes.S fuel' =>
      let '(l, S') := walk_children (walk W fuel') (child_modules W m) S in
      (m :: l, S')
  end.

(** The walks from [mods], one after the other, on the one set. *)
Fixpoint walk_each (W : world) (mods : list mod_id) (S : gset mod_id)
  : list mod_id :=
  match mods with
  | [] => []
  | m :: rest =>
      let '(l, S') := walk W (search_fuel W) m S in
      l ++ walk_each W rest S'
  end.

(** The order in which the namespaces are searched for a class: the
    depth-first walks from [schema], [opentime] and [core], in this order,
    that enter neither an opaque namespace nor a namespace entered
    before. *)
Definition search_order (W : world) : list mod_id :=
  walk_each W (SEARCH_MODULES W) (IGNORE_MODS W).

(** The first namespace of the list that holds the class. *)
Definition first_holder (W : world) (cl : class_id) (l : list mod_id)
  : option mod_id :=
  head (filter (fun x => holds W x cl) l).

(** What the result [r] and the set [S'] of a search say of the walk from
    the same namespace on the same set: the search found the first holder
    of the walk, or the walk has no holder and leaves the same set. *)
Definition search_as_walked (W : world) (cl : class_id) (r : option string)
    (S' : gset mod_id) (w : list mod_id * gset mod_id) : Prop :=
  match r with
  | Some name =>
      ∃ x, first_holder W cl w.1 = Some x ∧ name = mod_name (module_at W x)
  | None => w.2 = S' ∧ first_holder W cl w.1 = None
  end.

(** What a walk from [m] on the set [S] gives: the namespaces it lists are
    [m] and those it added to the set; all their members are in the set it
    leaves; all are reachable from [m] outside [S]. *)
Definition walked (W : world) (m : mod_id) (S : gset mod_id)
    (w : list mod_id * gset mod_id) : Prop :=
  S ⊆ w.2
  ∧ (∀ x, x ∈ w.1 ↔ x = m ∨ (x ∈ w.2 ∧ x ∉ S))
  ∧ (∀ x c, x ∈ w.1 → member W x c → c ∈ w.2)
  ∧ (∀ x, x ∈ w.1 → reachable W S m x).

(** The namespace a class is documented under, as the code decides it:
    - a class declared outside the two opaque namespaces keeps its declaring
      namespace;
    - a class declared in an opaque namespace is documented under the name
      of the first namespace, in the order of the search, that holds it;
    - when no namespace of the search holds it, it keeps its declaring
      namespace. *)
Inductive documented_under (W : world) (cl : class_id) : string → Prop :=
  | documented_where_declared :
      cl_module (class_at W cl) ∉ OPAQUE_MODULE_NAMES →
      documented_under W cl (cl_module (class_at W cl))
  | documented_under_holder (x : mod_id) :
      cl_module (class_at W cl) ∈ OPAQUE_MODULE_NAMES →
      first_holder W cl (search_order W) = Some x →
      documented_under W cl (mod_name (module_at W x))
  | documented_fallback :
      cl_module (class_at W cl) ∈ OPAQUE_MODULE_NAMES →
      first_holder W cl (search_order W) = None →
      documented_under W cl (cl_module (class_at W cl)).

(** ** The layout of the documents *)

(** What is written for one class: its label and its retained fields. *)
Record class_section : Type := {
  sec_class : class_id;
  sec_label : pyval;
  sec_props : list (string * pyval);
}.

(** What is written for one namespace group: whether a heading comes first,
    and the classes in writing order. *)
Record group_section : Type := {
  grp_path : string;
  grp_heading : bool;
  grp_classes : list class_section;
}.

Definition class_section_chunks (W : world) (this_mod : string)
    (c : class_section) : buffers :=
  (CLASS_HEADER_WITH_DOCS (sec_label c)
     (this_mod +:+ "." +:+ cl_name (class_at W (sec_class c)))
     (cl_doc (class_at W (sec_class c)))
     :: ((fun kv => PROP_HEADER kv.1 kv.2) <$> sec_props c),
   CLASS_HEADER_ONLY_FIELDS (sec_label c)
     :: ((fun kv => PROP_HEADER_NO_HELP kv.1) <$> sec_props c)).

Definition heading_chunks (g : group_section) : list chunk :=
  if grp_heading g then [MODULE_HEADER (first_two_segments (grp_path g))]
  else [].

Definition group_section_chunks (W : world) (g : group_section) : buffers :=
  let this_mod := first_two_segments (grp_path g) in
  (heading_chunks g
     ++ (grp_classes g ≫= fun c => (class_section_chunks W this_mod c).1),
   heading_chunks g
     ++ (grp_classes g ≫= fun c => (class_section_chunks W this_mod c).2)).

Definition document_chunks (W : world) (groups : list group_section)
  : buffers :=
  (DOCUMENT_HEADER :: (groups ≫= fun g => (group_section_chunks W g).1),
   FIELDS_ONLY_HEADER :: (groups ≫= fun g => (group_section_chunks W g).2)).

(** The items of [model[cl]] that are written: all but [SKIP_KEYS], sorted. *)
Definition written_items (entry : list (string * pyval))
  : list (string * pyval) :=
  filter (fun kv => kv.1 ∉ SKIP_KEYS) (sorted_items entry).

(** The section of a class of the model. *)
Definition section_of (model : model_t) (cl : class_id) (c : class_section)
  : Prop :=
  sec_class c = cl
  ∧ ∃ entry, dict_get cl model = Some entry
             ∧ dict_get "OTIO_SCHEMA" entry = Some (sec_label c)
             ∧ sec_props c = written_items entry.

#[global] Instance pyexn_eq_dec : EqDecision pyexn.
Proof. solve_decision. Defined.

#[global] Instance outcome_eq_dec {A} `{EqDecision A} : EqDecision (outcome A).
Proof. solve_decision. Defined.

(** The classes of the model whose effective namespace is [path], in the
    order of the model. *)
Definition classes_under (W : world) (model : model_t) (path : string)
  : list class_id :=
  filter (fun cl => effective_namespace W cl = Done path) (dict_keys model).

(** The key classes are sorted on: [str(cl)]. *)
Definition class_str (W : world) (cl : class_id) : string :=
  cl_str (class_at W cl).

(** The section written for one entry of [sorted_groups]. *)
Definition group_of (W : world) (model : model_t)
    (entry : string * list class_id) (g : group_section) : Prop :=
  grp_path g = entry.1
  ∧ Forall2 (section_of model) (sorted_by (class_str W) entry.2)
            (grp_classes g).

(** A heading is written when the first two segments differ from
    [CURRENT_MODULE], which then becomes those segments. *)
Fixpoint headings_from (CURRENT_MODULE : option string)
    (groups : list group_section) : Prop :=
  match groups with
  | [] => True
  | g :: rest =>
      grp_heading g
      = bool_decide (Some (first_two_segments (grp_path g)) ≠ CURRENT_MODULE)
      ∧ headings_from (Some (first_two_segments (grp_path g))) rest
  end.

(** The heading rule, group by group: the first group has a heading, and a
    later group has one exactly when its first two segments differ from
    those of the group before it. *)
Definition heading_rule (groups : list group_section) : Prop :=
  (∀ g, groups !! 0 = Some g → grp_heading g = true)
  ∧ ∀ i g g', groups !! i = Some g → groups !! S i = Some g' →
      (grp_heading g' = true
       ↔ take 2 (split_dot (grp_path g')) ≠ take 2 (split_dot (grp_path g))).

(** The groups of a model: what [write_chunks] writes, as sections. *)
Definition groups_written (W : world) (model : model_t)
    (groups : list group_section) : Prop :=
  ∃ modules,
    group_classes W model = Done modules
    ∧ Forall2 (group_of W model) (sorted_groups modules) groups
    ∧ heading_rule groups.

(** The two documents are the groups [groups] written in order, and the
    groups, the headings, the classes and the fields are ordered. *)
Definition documents_in_order (W : world) (model : model_t)
    (full short : string) (groups : list group_section) : Prop :=
  full = getvalue (document_chunks W groups).1
  ∧ short = getvalue (document_chunks W groups).2
  ∧ StronglySorted str_le (grp_path <$> groups)
  ∧ NoDup (grp_path <$> groups)
  ∧ heading_rule groups
  ∧ (∀ cl, cl ∈ dict_keys model →
       ∃ g, g ∈ groups ∧ cl ∈ sec_class <$> grp_classes g)
  ∧ ∀ g, g ∈ groups →
      sec_class <$> grp_classes g ≡ₚ classes_under W model (grp_path g)
      ∧ StronglySorted str_le
          ((fun c => class_str W (sec_class c)) <$> grp_classes g)
      ∧ ∀ c, c ∈ grp_classes g →
          section_of model (sec_class c) c
          ∧ StronglySorted str_le (sec_props c).*1.

(** The field keys a buffer lists, in order. *)
Definition prop_keys (buffer : list chunk) : list string :=
  omap (fun c => match c with
                 | PROP_HEADER key _ | PROP_HEADER_NO_HELP key => Some key
                 | _ => None
                 end) buffer.

(** The documents [b] are the groups [groups]; every class of the model has
    a section, and the field keys listed in a section are as the extraction
    of its class decides. *)
Definition field_keys_listed (W : world) (st : gen_state) (b : buffers)
    (groups : list group_section) : Prop :=
  b = document_chunks W groups
  ∧ (∀ cl, cl ∈ dict_keys (st_classes st) →
       ∃ g, g ∈ groups ∧ cl ∈ sec_class <$> grp_classes g)
  ∧ ∀ g c, g ∈ groups → c ∈ grp_classes g →
      let cl := sec_class c in
      let this_mod := first_two_segments (grp_path g) in
      let serialized := dict_keys (cl_field_dict (class_at W cl)) in
      let listed := prop_keys (class_section_chunks W this_mod c).1 in
      prop_keys (class_section_chunks W this_mod c).2 = listed
      ∧ (∀ k, k ∈ listed → k ∈ serialized ∧ (k ∉ SKIP_KEYS))
      ∧ (∀ k, k ∈ serialized → (k ∉ SKIP_KEYS) →
              is_Some (getattr_class W cl k) → k ∈ listed)
      ∧ (∀ k, getattr_class W cl k = None →
              getattr_class W cl ("_" +:+ k) = None →
              getattr_instance W cl k = None → k ∉ listed).

(** Two interpreter states look the same to the renderer on a model when,
    for every class of the model, the name, the documentation string, the
    display string and the effective namespace agree. *)
Definition same_to_renderer (W1 W2 : world) (model : model_t) : Prop :=
  ∀ cl, cl ∈ dict_keys model →
    cl_name (class_at W1 cl) = cl_name (class_at W2 cl)
    ∧ cl_doc (class_at W1 cl) = cl_doc (class_at W2 cl)
    ∧ cl_str (class_at W1 cl) = cl_str (class_at W2 cl)
    ∧ effective_namespace W1 cl = effective_namespace W2 cl.

(** The model has a schema label for each of its classes. *)
Definition labelled (model : model_t) : Prop :=
  ∀ cl entry, (cl, entry) ∈ model → is_Some (dict_get "OTIO_SCHEMA" entry).


(** ** What the traversal reaches *)

(** The name of the namespace starts with none of [SKIP_MODULES]. *)
Definition enterable (W : world) (m : mod_id) : Prop :=
  forallb (fun t => negb (String.prefix t (mod_name (module_at W m))))
          SKIP_MODULES = true.

(** The traversal can step from [a] into its member [b]. *)
Definition enters (W : world) (a b : mod_id) : Prop :=
  member W a b ∧ enterable W b.

(** Reachable from [a] by such steps. *)
Definition walkable (W : world) : relation mod_id := rtc (enters W).

(** The class passes the filter of [serializable_classes] wherever it is
    new, and is off [SKIP_CLASSES]. *)
Definition candidate (W : world) (cl : class_id) : Prop :=
  (cl_serializable (class_at W cl) = true
   ∨ cl ∈ [RationalTime W; TimeRange W; TimeTransform W])
  ∧ cl ∉ SKIP_CLASSES W.

(** What a call on [m] that started with the set [V] leaves in [V']: [m]
    and [V], and every namespace it added, and [m], has all the members it
    can step into in [V']. *)
Definition visited_closed (W : world) (V : gset mod_id) (m : mod_id)
    (V' : gset mod_id) : Prop :=
  {[m]} ∪ V ⊆ V'
  ∧ ∀ x, x ∈ V' → x ∉ V ∨ x = m → ∀ c, enters W x c → c ∈ V'.


(** ** When the extraction raises *)



(** ** The two documents side by side *)

(** The write to the fields-only buffer that goes with a write to the full
    buffer: the same template without its documentation. *)
Definition strip_docs (c : chunk) : chunk :=
  match c with
  | DOCUMENT_HEADER => FIELDS_ONLY_HEADER
  | CLASS_HEADER_WITH_DOCS classname _ _ => CLASS_HEADER_ONLY_FIELDS classname
  | PROP_HEADER propkey _ => PROP_HEADER_NO_HELP propkey
  | c => c
  end.

(** The write is a class heading. *)
Definition is_class_header (c : chunk) : bool :=
  match c with
  | CLASS_HEADER_WITH_DOCS _ _ _ | CLASS_HEADER_ONLY_FIELDS _ => true
  | _ => false
  end.

(** The class headings of a buffer. *)
Definition class_headers (buffer : list chunk) : list chunk :=
  filter (fun c => is_class_header c = true) buffer.


(** ** Diagnostics *)

(** The key is off [SKIP_KEYS] and the class-level lookup of it raises. *)
Definition unresolved (W : world) (cl : class_id) (k : string) : Prop :=
  (k ∉ SKIP_KEYS) ∧ getattr_class W cl k = None.

#[global] Instance unresolved_dec W cl k : Decision (unresolved W cl k).
Proof. unfold unresolved. apply _. Defined.






(** ** A search that finds nothing *)

(** What a search from [m] that started with the set [S] and returned
    [None] leaves in [S']: neither [m] nor a namespace it added holds the
    class, and all their members are in [S']. *)
Definition nothing_found (W : world) (cl : class_id) (S : gset mod_id)
    (m : mod_id) (S' : gset mod_id) : Prop :=
  S ⊆ S'
  ∧ ¬ holds W m cl
  ∧ (∀ c, member W m c → c ∈ S')
  ∧ ∀ x, x ∈ S' → x ∉ S → ¬ holds W x cl ∧ ∀ c, member W x c → c ∈ S'.

(** The set holds the ignored namespaces, and every other namespace in it
    was searched: it does not hold the class and its members are in the
    set. *)
Definition searched_in_vain (W : world) (cl : class_id) (S : gset mod_id)
  : Prop :=
  IGNORE_MODS W ⊆ S
  ∧ ∀ x, x ∈ S → x ∉ IGNORE_MODS W →
         ¬ holds W x cl ∧ ∀ c, member W x c → c ∈ S.


(** * Example worlds *)

Definition example_module (name : string) (members : list thing) : pymodule :=
  {| mod_name := name; mod_str := "<module '" +:+ name +:+ "'>";
     mod_dict := members |}.

Definition documented_property (doc : string) : pyattr :=
  {| attr_is_property := true; attr_doc := PyStr doc |}.

Definition plain_attribute : pyattr :=
  {| attr_is_property := false; attr_doc := PyNone |}.

Definition example_class (module name : string) (serializable : bool)
    (fields : list (string * pyval)) (attrs inst_attrs : list (string * pyattr))
  : pyclass :=
  {| cl_module := module; cl_name := name;
     cl_doc := PyStr ("The " +:+ name +:+ " class.");
     cl_str := "<class '" +:+ module +:+ "." +:+ name +:+ "'>";
     cl_serializable := serializable; cl_field_dict := fields;
     cl_serialize_raises := None;
     cl_attrs := attrs; cl_inst_attrs := inst_attrs |}.

(** The classes of the examples, by address:
    0 [SerializableObject], 1 [UnknownSchema], 2 [TestObject],
    3 [RationalTime], 4 [TimeRange], 5 [TimeTransform];
    6 [Foo], whose field [name] is a documented property;
    7 [Bar], whose fields are instance attributes, [name] with a documented
      private property [_name];
    8 [Baz], whose field [ghost] has no accessor of any shape;
    9 [Internal], which only the native namespace holds;
    10 [Plain], declared in a Python namespace. *)
Definition example_classes : list pyclass := [
  example_class "opentimelineio._otio" "SerializableObject" true
    [("OTIO_SCHEMA", PyStr "SerializableObject.1")] [] [];
  example_class "opentimelineio._otio" "UnknownSchema" true
    [("OTIO_SCHEMA", PyStr "UnknownSchema.1")] [] [];
  example_class "opentimelineio._otio" "TestObject" true
    [("OTIO_SCHEMA", PyStr "TestObject.1")] [] [];
  example_class "opentimelineio._opentime" "RationalTime" false
    [("OTIO_SCHEMA", PyStr "RationalTime.1"); ("rate", PyOther "1.0");
     ("value", PyOther "0.0")]
    [("rate", documented_property ""); ("value", documented_property "")] [];
  example_class "opentimelineio._opentime" "TimeRange" false
    [("OTIO_SCHEMA", PyStr "TimeRange.1"); ("duration", PyOther "{}");
     ("start_time", PyOther "{}")]
    [("duration", documented_property "");
     ("start_time", documented_property "")] [];
  example_class "opentimelineio._opentime" "TimeTransform" false
    [("OTIO_SCHEMA", PyStr "TimeTransform.1"); ("offset", PyOther "{}");
     ("rate", PyOther "1.0"); ("scale", PyOther "1.0")]
    [("offset", documented_property ""); ("rate", documented_property "");
     ("scale", documented_property "")] [];
  example_class "opentimelineio._otio" "Foo" true
    [("OTIO_SCHEMA", PyStr "Foo.1"); ("name", PyStr "x");
     ("children", PyOther "[]")]
    [("name", documented_property "The name of the object.")] [];
  example_class "opentimelineio._otio" "Bar" true
    [("OTIO_SCHEMA", PyStr "Bar.1"); ("name", PyStr ""); ("color", PyStr "RED")]
    [("_name", documented_property "The name of the object.")]
    [("name", plain_attribute); ("color", plain_attribute)];
  example_class "opentimelineio._otio" "Baz" true
    [("OTIO_SCHEMA", PyStr "Baz.1"); ("ghost", PyNone);
     ("enabled", PyOther "True")]
    [("enabled", plain_attribute)] [("enabled", plain_attribute)];
  example_class "opentimelineio._otio" "Internal" true
    [("OTIO_SCHEMA", PyStr "Internal.1")] [] [];
  example_class "opentimelineio.schema.plain" "Plain" true
    [("OTIO_SCHEMA", PyStr "Plain.1")] [] []
].

(** The namespaces of the examples, by address: 0 [opentimelineio],
    1 [.schema], 2 [.opentime], 3 [.core], 4 [._otio], 5 [._opentime],
    and from 6 whatever the example adds. *)
Definition example_world (mods : list pymodule) : world :=
  {| heap_modules := mods; heap_classes := example_classes;
     otio := 0; otio_schema := 1; otio_opentime := 2; otio_core := 3;
     otio__otio := 4; otio__opentime := 5;
     SerializableObject := 0; UnknownSchema := 1; TestObject := 2;
     RationalTime := 3; TimeRange := 4; TimeTransform := 5 |}.

(** A package laid out like the real one: the Python namespaces import each
    other and the native ones, [core] refers back to the root, [adapters]
    (6) re-exports [Bar] and [RationalTime], [schemadef] (7) holds plugins. *)
Definition otio_world : world := example_world [
  example_module "opentimelineio"
    [Other; Mod 6; Mod 3; Mod 2; Mod 1; Mod 4; Mod 5; Mod 7];
  example_module "opentimelineio.schema"
    [Cls 6; Cls 8; Cls 1; Cls 10; Mod 3; Mod 4];
  example_module "opentimelineio.opentime" [Cls 3; Cls 4; Cls 5; Mod 5];
  example_module "opentimelineio.core" [Cls 0; Cls 2; Mod 4; Mod 0];
  example_module "opentimelineio._otio"
    [Cls 0; Cls 1; Cls 2; Cls 6; Cls 7; Cls 8; Cls 9];
  example_module "opentimelineio._opentime" [Cls 3; Cls 4; Cls 5];
  example_module "opentimelineio.adapters" [Mod 3; Mod 1; Cls 7; Cls 3];
  example_module "opentimelineio.schemadef" [Other]
].

(** The model extracted from [otio_world]. *)
Definition otio_model : model_t :=
  Eval vm_compute in
    match _generate_model otio_world with
    | Done st => st_classes st
    | _ => []
    end.

(** The root holds [schema], which holds [Baz]. *)
Definition ghost_world : world := example_world [
  example_module "opentimelineio" [Mod 1];
  example_module "opentimelineio.schema" [Cls 8];
  example_module "opentimelineio.opentime" [];
  example_module "opentimelineio.core" [];
  example_module "opentimelineio._otio" [Cls 8];
  example_module "opentimelineio._opentime" []
].

(** The root holds [schema], which holds [Bar]. *)
Definition private_world : world := example_world [
  example_module "opentimelineio" [Mod 1];
  example_module "opentimelineio.schema" [Cls 7];
  example_module "opentimelineio.opentime" [];
  example_module "opentimelineio.core" [];
  example_module "opentimelineio._otio" [Cls 7];
  example_module "opentimelineio._opentime" []
].

(** The root holds [adapters] (6) and [core] (3); [adapters] holds [core]
    too. *)
Definition revisit_world : world := example_world [
  example_module "opentimelineio" [Mod 6; Mod 3];
  example_module "opentimelineio.schema" [];
  example_module "opentimelineio.opentime" [];
  example_module "opentimelineio.core" [];
  example_module "opentimelineio._otio" [];
  example_module "opentimelineio._opentime" [];
  example_module "opentimelineio.adapters" [Mod 3]
].

(** The root re-exports [RationalTime], which [opentime] holds. *)
Definition reexport_world : world := example_world [
  example_module "opentimelineio" [Cls 3; Mod 2];
  example_module "opentimelineio.schema" [];
  example_module "opentimelineio.opentime" [Cls 3];
  example_module "opentimelineio.core" [];
  example_module "opentimelineio._otio" [];
  example_module "opentimelineio._opentime" [Cls 3]
].

(** [Bar] is held by [adapters] (6), which only [schema] holds; [opentime]
    and [core] hold no namespace. *)
Definition nested_world : world := example_world [
  example_module "opentimelineio" [Mod 1; Mod 2; Mod 3];
  example_module "opentimelineio.schema" [Mod 6];
  example_module "opentimelineio.opentime" [];
  example_module "opentimelineio.core" [];
  example_module "opentimelineio._otio" [Cls 7];
  example_module "opentimelineio._opentime" [];
  example_module "opentimelineio.adapters" [Cls 7]
].

(** [nested_world] with [Bar] exported by [schema] as well. *)
Definition exported_world : world := example_world [
  example_module "opentimelineio" [Mod 1; Mod 2; Mod 3];
  example_module "opentimelineio.schema" [Cls 7; Mod 6];
  example_module "opentimelineio.opentime" [];
  example_module "opentimelineio.core" [];
  example_module "opentimelineio._otio" [Cls 7];
  example_module "opentimelineio._opentime" [];
  example_module "opentimelineio.adapters" [Cls 7]
].

(** ** Checks on a concrete world *)

(** The namespaces of the heap that hold the class. *)
Definition holders (W : world) (cl : class_id) : list mod_id :=
  filter (fun m => holds W m cl) (seq 0 (length (heap_modules W))).

(** Every member of a namespace of [l] is in [l] or in [avoid]. *)
Definition closed_under (W : world) (avoid : gset mod_id) (l : list mod_id)
  : bool :=
  forallb (fun a => forallb (fun b => bool_decide (b ∈ avoid ∨ b ∈ l))
                            (child_modules W a)) l.

(** The class is held by a namespace reachable from [M] through members. *)
Definition contained (W : world) (M : mod_id) (cl : class_id) : Prop :=
  ∃ x, reachable W ∅ M x ∧ holds W x cl.

(** The claim C1 as the specification words it: the listed keys are the
    serialized keys but the two excluded ones. *)
Definition listed_as_specified (W : world) (cl : class_id)
    (listed : list string) : Prop :=
  ∀ k, k ∈ listed ↔
       k ∈ dict_keys (cl_field_dict (class_at W cl)) ∧ k ∉ SKIP_KEYS.


(** ** An operating system for [main] *)

(** Every path can be opened, except those under [/proc/]; temporary files
    are named in a directory whose name has a dot. *)
Definition example_env : os_env := {|
  env_writable := fun path => negb (String.prefix "/proc/" path);
  env_tmp_stem := "/tmp/run.1/tmpab12cd";
|}.

Definition example_os : os_state := {|
  os_files := {[ "notes.txt" := "keep" ]};
  os_stdout := [];
|}.

Definition to_file (output : string) : arguments :=
  {| args_dryrun := false; args_output := Some output |}.

Definition by_default : arguments :=
  {| args_dryrun := false; args_output := None |}.



(** ** A class without a schema label *)



(** ** A class that cannot be constructed without arguments *)



(** ** A class bound twice *)



(** * Properties *)

(** ** Outcomes and loops *)

Lemma bind_Done {A B} (f : A → outcome B) (o : outcome A) (b : B) :
  o ≫= f = Done b → ∃ a, o = Done a ∧ f a = Done b.
Proof. destruct o as [a| |]; simpl; [eauto | done..]. Qed.

Lemma bind_terminated {A B} (f : A → outcome B) (o : outcome A) :
  terminated o → (∀ a, o = Done a → terminated (f a)) → terminated (o ≫= f).
Proof. destruct o as [a| |]; simpl; [auto | done..]. Qed.

Lemma bind_returns {A B} (f : A → outcome B) (o : outcome A) :
  returns o → (∀ a, o = Done a → returns (f a)) → returns (o ≫= f).
Proof. intros [a ->] Hf. simpl. by apply Hf. Qed.

(** An invariant of the loop body is an invariant of the loop. *)
Lemma for_each_invariant {A S} (P : S → Prop) (body : A → S → outcome S) l :
  (∀ x s s', x ∈ l → P s → body x s = Done s' → P s') →
  ∀ s s', P s → for_each body l s = Done s' → P s'.
Proof.
  induction l as [|x l IH]; intros Hbody s s' Hs; simpl.
  - by intros [= <-].
  - intros (s1 & H1 & H2)%bind_Done.
    eapply IH; [| |exact H2].
    + intros y t t' Hy. apply Hbody. by right.
    + eapply Hbody; [by left|exact Hs|exact H1].
Qed.

(** A loop whose body terminates from every state the invariant admits
    terminates. *)
Lemma for_each_terminated {A S} (P : S → Prop) (body : A → S → outcome S) l :
  (∀ x s, x ∈ l → P s → terminated (body x s)) →
  (∀ x s s', x ∈ l → P s → body x s = Done s' → P s') →
  ∀ s, P s → terminated (for_each body l s).
Proof.
  induction l as [|x l IH]; intros Hterm Hinv s Hs; simpl; [done|].
  apply bind_terminated.
  - apply Hterm; [by left|done].
  - intros s1 H1. apply IH.
    + intros y t Hy. apply Hterm. by right.
    + intros y t t' Hy. apply Hinv. by right.
    + eapply Hinv; [by left|exact Hs|exact H1].
Qed.

Lemma for_each_returns {A S} (P : S → Prop) (body : A → S → outcome S) l :
  (∀ x s, x ∈ l → P s → returns (body x s)) →
  (∀ x s s', x ∈ l → P s → body x s = Done s' → P s') →
  ∀ s, P s → returns (for_each body l s).
Proof.
  induction l as [|x l IH]; intros Hret Hinv s Hs; simpl; [by eexists|].
  apply bind_returns.
  - apply Hret; [by left|done].
  - intros s1 H1. apply IH.
    + intros y t Hy. apply Hret. by right.
    + intros y t t' Hy. apply Hinv. by right.
    + eapply Hinv; [by left|exact Hs|exact H1].
Qed.

(** ** Dictionaries *)

Section dict_facts.
Context {K V : Type} `{EqDecision K}.
Implicit Types (d : list (K * V)) (k : K) (v : V).

Lemma dict_get_set_eq d k v : dict_get k (dict_set k v d) = Some v.
Proof.
  induction d as [|[k' v'] d IH]; simpl.
  - by rewrite decide_True.
  - destruct (decide (k = k')) as [->|Hne]; simpl.
    + by rewrite decide_True.
    + by rewrite decide_False.
Qed.

Lemma dict_get_set_ne d k k' v :
  k ≠ k' → dict_get k' (dict_set k v d) = dict_get k' d.
Proof.
  intros Hne. induction d as [|[k0 v0] d IH]; simpl.
  - by rewrite decide_False.
  - destruct (decide (k = k0)) as [->|Hne0]; simpl.
    + by rewrite !decide_False.
    + by rewrite IH.
Qed.

Lemma dict_get_set d k k' v :
  dict_get k' (dict_set k v d)
  = if decide (k = k') then Some v else dict_get k' d.
Proof.
  destruct (decide (k = k')) as [->|Hne];
    [apply dict_get_set_eq | by apply dict_get_set_ne].
Qed.

Lemma dict_get_Some_keys d k v : dict_get k d = Some v → k ∈ dict_keys d.
Proof.
  induction d as [|[k' v'] d IH]; simpl; [done|].
  destruct (decide (k = k')) as [->|Hne].
  - intros _. by left.
  - intros Hget. right. by apply IH.
Qed.

Lemma dict_get_None_keys d k : dict_get k d = None ↔ k ∉ dict_keys d.
Proof.
  induction d as [|[k' v'] d IH]; simpl.
  - split; [intros _; apply not_elem_of_nil | done].
  - rewrite not_elem_of_cons. destruct (decide (k = k')) as [->|Hne].
    + split; [done | by intros [? _]].
    + rewrite IH. naive_solver.
Qed.

Lemma dict_keys_get d k : k ∈ dict_keys d ↔ is_Some (dict_get k d).
Proof.
  destruct (dict_get k d) as [v|] eqn:Hget.
  - split; [eauto | intros _; by eapply dict_get_Some_keys].
  - split; [by intros ?%dict_get_None_keys | by intros [? [=]]].
Qed.

Lemma dict_keys_set d k k' v :
  k' ∈ dict_keys (dict_set k v d) ↔ k' = k ∨ k' ∈ dict_keys d.
Proof.
  rewrite !dict_keys_get, dict_get_set.
  destruct (decide (k = k')) as [->|Hne]; [by intuition eauto|].
  naive_solver.
Qed.

Lemma dict_get_update d other k :
  dict_get k (dict_update d other)
  = match dict_get k (reverse other) with
    | Some v => Some v
    | None => dict_get k d
    end.
Proof.
  unfold dict_update. revert d.
  induction other as [|[k0 v0] other IH] using rev_ind; intros d; [done|].
  rewrite fold_left_app, reverse_app. simpl.
  rewrite dict_get_set. destruct (decide (k0 = k)) as [->|Hne].
  - by rewrite decide_True.
  - rewrite decide_False by done. apply IH.
Qed.

Lemma dict_keys_update d other k :
  k ∈ dict_keys (dict_update d other)
  ↔ k ∈ dict_keys other ∨ k ∈ dict_keys d.
Proof.
  rewrite !dict_keys_get, dict_get_update.
  destruct (dict_get k (reverse other)) as [v|] eqn:Hrev.
  - apply dict_get_Some_keys in Hrev.
    unfold dict_keys in Hrev. rewrite fmap_reverse, elem_of_reverse in Hrev.
    apply dict_keys_get in Hrev. by intuition eauto.
  - apply dict_get_None_keys in Hrev.
    unfold dict_keys in Hrev. rewrite fmap_reverse, elem_of_reverse in Hrev.
    rewrite <- !dict_keys_get. tauto.
Qed.
End dict_facts.

(** ** Path segments *)

Lemma split_dot_pieces s :
  ∃ piece pieces,
    split_dot s = piece :: pieces ∧ Forall dot_free (piece :: pieces).
Proof.
  induction s as [|c s (piece & pieces & Hs & Hfree)]; simpl.
  - exists "", []. split; [done|]. by repeat constructor.
  - rewrite Hs. destruct (decide (c = "."%char)) as [->|Hc].
    + exists "", (piece :: pieces). split; [done|]. by constructor.
    + exists (String c piece), pieces. split; [done|].
      apply Forall_cons in Hfree as [? ?]. by repeat constructor.
Qed.

Lemma dot_free_no_dot a b : ¬ dot_free (a +:+ "." +:+ b).
Proof. induction a as [|c a IH]; simpl; [by intros [? _] | by intros [_ ?]]. Qed.

Lemma joined_pair_inj x y x' y' :
  dot_free x → dot_free x' →
  x +:+ "." +:+ y = x' +:+ "." +:+ y' → x = x' ∧ y = y'.
Proof.
  revert x'. induction x as [|c x IH]; intros [|c' x'] Hx Hx' Heq;
    simpl in *.
  - by simplify_eq.
  - simplify_eq. by destruct Hx'.
  - simplify_eq. by destruct Hx.
  - destruct Hx as [_ Hx], Hx' as [_ Hx']. injection Heq as -> Heq.
    by destruct (IH x' Hx Hx' Heq) as [-> ->].
Qed.

(** Joining the first two segments loses nothing: the joined strings are
    equal exactly when the segments are. *)
Lemma first_two_segments_inj a b :
  first_two_segments a = first_two_segments b
  ↔ take 2 (split_dot a) = take 2 (split_dot b).
Proof.
  unfold first_two_segments. split; [|by intros ->].
  destruct (split_dot_pieces a) as (x & xs & -> & [Hx Hxs]%Forall_cons).
  destruct (split_dot_pieces b) as (x' & xs' & -> & [Hx' Hxs']%Forall_cons).
  destruct xs as [|y xs], xs' as [|y' xs']; simpl.
  - by intros ->.
  - intros ->. by apply dot_free_no_dot in Hx.
  - intros <-. by apply dot_free_no_dot in Hx'.
  - intros [-> ->]%joined_pair_inj; done.
Qed.

(** ** Sorting *)

Lemma ascii_compare_trans (x y z : ascii) (c : comparison) :
  Ascii.compare x y = c → Ascii.compare y z = c → Ascii.compare x z = c.
Proof.
  unfold Ascii.compare. intros H1 H2. destruct c.
  - apply N.compare_eq_iff in H1, H2. apply N.compare_eq_iff. congruence.
  - rewrite N.compare_lt_iff in *. lia.
  - rewrite N.compare_gt_iff in *. lia.
Qed.

Lemma string_compare_not_Gt_trans (a b c : string) :
  String.compare a b ≠ Gt → String.compare b c ≠ Gt → String.compare a c ≠ Gt.
Proof.
  revert b c. induction a as [|x a IH]; intros [|y b] [|z c]; simpl; try done.
  destruct (Ascii.compare x y) eqn:Hxy; [|clear IH|done].
  - apply Ascii.compare_eq_iff in Hxy as ->.
    destruct (Ascii.compare y z); [apply IH|done..].
  - destruct (Ascii.compare y z) eqn:Hyz; [| |done].
    + apply Ascii.compare_eq_iff in Hyz as ->. by rewrite Hxy.
    + by rewrite (ascii_compare_trans x y z Lt).
Qed.

#[global] Instance str_le_trans : Transitive str_le.
Proof.
  unfold str_le, String.leb. intros a b c Hab Hbc.
  pose proof (string_compare_not_Gt_trans a b c) as H.
  destruct (String.compare a b), (String.compare b c), (String.compare a c);
    try done; exfalso; by apply H.
Qed.

Lemma str_le_total a b : str_le a b ∨ str_le b a.
Proof. apply String.leb_total. Qed.

Lemma StronglySorted_filter {A} (R : relation A) (P : A → Prop)
    `{∀ x, Decision (P x)} l :
  StronglySorted R l → StronglySorted R (filter P l).
Proof.
  induction 1 as [|x l Hl IH Hx]; [constructor|].
  rewrite filter_cons. case_decide; [|done].
  constructor; [done|]. rewrite Forall_forall in *.
  intros y [_ Hy]%list_elem_of_filter. by apply Hx.
Qed.

Section sorting_facts.
Context {A : Type} (key : A → string).

Lemma insert_by_perm (x : A) l : insert_by key x l ≡ₚ x :: l.
Proof.
  induction l as [|y l IH]; simpl; [done|].
  destruct (String.leb (key x) (key y)); [done|].
  rewrite IH. apply Permutation_swap.
Qed.

Lemma sorted_by_perm l : sorted_by key l ≡ₚ l.
Proof.
  induction l as [|x l IH]; simpl; [done|].
  by rewrite insert_by_perm, IH.
Qed.

Lemma elem_of_sorted_by x l : x ∈ sorted_by key l ↔ x ∈ l.
Proof. by rewrite sorted_by_perm. Qed.

Lemma insert_by_StronglySorted (x : A) l :
  StronglySorted (key_le key) l → StronglySorted (key_le key) (insert_by key x l).
Proof.
  induction 1 as [|y l Hl IH Hy]; simpl; [by repeat constructor|].
  destruct (String.leb (key x) (key y)) eqn:Hxy.
  - constructor; [by constructor|]. constructor; [done|].
    eapply Forall_impl; [exact Hy|]. intros z Hz. unfold key_le in *.
    by etrans.
  - constructor; [done|]. rewrite insert_by_perm. constructor; [|done].
    unfold key_le. destruct (str_le_total (key x) (key y)) as [Hle|Hle];
      [unfold str_le in Hle; congruence|done].
Qed.

Lemma sorted_by_StronglySorted l : StronglySorted (key_le key) (sorted_by key l).
Proof.
  induction l as [|x l IH]; simpl; [constructor|].
  by apply insert_by_StronglySorted.
Qed.

Lemma StronglySorted_keys l :
  StronglySorted (key_le key) l → StronglySorted str_le (key <$> l).
Proof.
  induction 1 as [|x l Hl IH Hx]; simpl; [constructor|].
  constructor; [done|]. by apply Forall_fmap.
Qed.

(** The sort looks at the keys of the elements only. *)
Lemma insert_by_ext (key' : A → string) x l :
  key x = key' x → (∀ y, y ∈ l → key y = key' y) →
  insert_by key x l = insert_by key' x l.
Proof.
  intros Hx. induction l as [|y l IH]; intros Hl; simpl; [done|].
  rewrite <- Hx, <- (Hl y) by (by left).
  destruct (String.leb (key x) (key y)); [done|].
  f_equal. apply IH. intros z Hz. apply Hl. by right.
Qed.
End sorting_facts.

Lemma sorted_by_ext {A} (key key' : A → string) l :
  (∀ y, y ∈ l → key y = key' y) → sorted_by key l = sorted_by key' l.
Proof.
  induction l as [|x l IH]; intros Hl; simpl; [done|].
  rewrite <- IH by (intros z Hz; apply Hl; by right).
  apply insert_by_ext; [apply Hl; by left|].
  intros y Hy%elem_of_sorted_by. apply Hl. by right.
Qed.

(** ** Documentation lookup *)

Lemma try_fetchers_class_level W cl k :
  try_fetchers W cl k PROP_FETCHERS = ([], class_level_doc W cl k).
Proof.
  unfold class_level_doc, PROP_FETCHERS. simpl.
  unfold fetch_property.
  destruct (getattr_class W cl k) as [a|] eqn:Hattr; simpl; [|done].
  by destruct (attr_is_property a).
Qed.

Lemma extract_key_class_level W cl entry trace k :
  extract_key W cl (entry, trace) k
  = if bool_decide (k ∈ SKIP_KEYS) then (entry, trace)
    else match class_level_doc W cl k with
         | Some v => (dict_set k v entry, trace)
         | None => (entry, trace ++ [EvStderr (could_not_fetch k)])
         end.
Proof.
  unfold extract_key. case_bool_decide; [done|].
  rewrite try_fetchers_class_level.
  destruct (class_level_doc W cl k); [by rewrite app_nil_r | done].
Qed.

(** C5: the documentation stored for a key is decided by the class-level
    lookup [getattr(cl, k)] alone.  When the lookup finds a property, the
    property's documentation is stored; when it finds something else, the
    empty string is stored; when it raises, nothing is stored and the
    diagnostic is written.  The underscore-prefixed and the instance-based
    fetchers never decide the stored value, and the third fetcher, whenever
    it returns, returns the empty string. *)
Theorem stored_doc_is_class_level (W : world) (cl : class_id) (k : string)
    (entry : list (string * pyval)) (trace : list event) :
  try_fetchers W cl k PROP_FETCHERS
  = ([], match getattr_class W cl k with
         | Some a => Some (if attr_is_property a then attr_doc a else PyStr "")
         | None => None
         end)
  ∧ extract_key W cl (entry, trace) k
    = (if bool_decide (k ∈ SKIP_KEYS) then (entry, trace)
       else match getattr_class W cl k with
            | Some a =>
                (dict_set k (if attr_is_property a then attr_doc a
                             else PyStr "") entry,
                 trace)
            | None => (entry, trace ++ [EvStderr (could_not_fetch k)])
            end)
  ∧ ∀ evs v, fetch_instance_attribute W cl k = (evs, Some v) → v = PyStr "".
Proof.
  split_and!.
  - apply try_fetchers_class_level.
  - rewrite extract_key_class_level. unfold class_level_doc.
    by destruct (getattr_class W cl k).
  - unfold fetch_instance_attribute. intros evs v [= _ Hv].
    destruct (getattr_instance W cl k); simpl in Hv; [|done].
    by injection Hv as <-.
Qed.

(** ** What one class contributes *)

Lemma elem_of_dict_set {K V} `{EqDecision K} (d : list (K * V)) k v k' v' :
  (k', v') ∈ dict_set k v d → (k', v') = (k, v) ∨ (k', v') ∈ d.
Proof.
  induction d as [|[k0 v0] d IH]; simpl.
  - intros ->%list_elem_of_singleton. by left.
  - destruct (decide (k = k0)) as [->|Hne].
    + intros [->| Hin]%elem_of_cons; [by left | right; by right].
    + intros [->| Hin]%elem_of_cons; [right; by left|].
      destruct (IH Hin) as [?|?]; [by left | right; by right].
Qed.

Lemma elem_of_dict_update {K V} `{EqDecision K} (d other : list (K * V)) kv :
  kv ∈ dict_update d other → kv ∈ other ∨ kv ∈ d.
Proof.
  unfold dict_update. revert d.
  induction other as [|[k v] other IH]; intros d; simpl; [by right|].
  intros Hin. destruct (IH _ Hin) as [?|Hd]; [left; by right|].
  destruct kv as [k' v'].
  apply elem_of_dict_set in Hd as [->|?]; [left; by left | by right].
Qed.

Lemma dict_get_Some_elem_of {K V} `{EqDecision K} (d : list (K * V)) k v :
  dict_get k d = Some v → (k, v) ∈ d.
Proof.
  induction d as [|[k0 v0] d IH]; simpl; [done|].
  destruct (decide (k = k0)) as [->|Hne].
  - intros [= ->]. by left.
  - intros Hget. right. by apply IH.
Qed.

(** The keys and the events of the loop over the serialized keys. *)
Lemma extract_keys_spec W cl keys entry trace entry' trace' :
  fold_left (extract_key W cl) keys (entry, trace) = (entry', trace') →
  (∀ k, k ∈ dict_keys entry' ↔
        k ∈ dict_keys entry
        ∨ (k ∈ keys ∧ (k ∉ SKIP_KEYS) ∧ is_Some (getattr_class W cl k)))
  ∧ (∀ e, e ∈ trace' → e ∈ trace ∨ ∃ text, e = EvStderr text).
Proof.
  revert entry trace.
  induction keys as [|k0 keys IH]; intros entry trace; cbn [fold_left].
  - intros [= <- <-]. split; [|by left]. intros k. rewrite elem_of_nil. tauto.
  - rewrite extract_key_class_level. unfold class_level_doc.
    case_bool_decide as Hskip.
    + intros [IH1 IH2]%IH. split; [|done].
      intros k. rewrite IH1, elem_of_cons. naive_solver.
    + destruct (getattr_class W cl k0) as [a|] eqn:Hattr.
      * intros [IH1 IH2]%IH. split; [|done]. intros k.
        rewrite IH1, dict_keys_set, elem_of_cons.
        split; [|naive_solver].
        intros [[->|?]|?]; [right|by left|naive_solver].
        split_and!; [by left|done|by rewrite Hattr].
      * intros [IH1 IH2]%IH. split.
        -- intros k. rewrite IH1, elem_of_cons. split; [naive_solver|].
           intros [?|([->|?] & ? & Hsome)]; [by left| |naive_solver].
           rewrite Hattr in Hsome. by destruct Hsome.
        -- intros e He. destruct (IH2 e He) as [Hin|?]; [|by right].
           apply elem_of_app in Hin as [?|Hin]; [by left|].
           apply list_elem_of_singleton in Hin as ->. right; eauto.
Qed.

(** [model[cl]] after the class is extracted: its keys are the serialized
    keys that are not skipped and that the class-level lookup finds, and
    the stashed ["OTIO_SCHEMA"]. *)
Lemma extract_class_keys W cl entry evs :
  extract_class W cl = Done (entry, evs) →
  ∀ k, k ∈ dict_keys entry ↔
       k = "OTIO_SCHEMA"
       ∨ (k ∈ dict_keys (cl_field_dict (class_at W cl)) ∧ (k ∉ SKIP_KEYS)
          ∧ is_Some (getattr_class W cl k)).
Proof.
  unfold extract_class. destruct (cl_serialize_raises _); [done|].
  destruct (fold_left _ _ _) as [entry0 trace0] eqn:Hfold.
  apply extract_keys_spec in Hfold as [Hkeys _].
  destruct (dict_get "OTIO_SCHEMA" _) as [label|]; [|done].
  intros [= <- <-] k. rewrite dict_keys_set, Hkeys.
  unfold dict_keys at 1. simpl. rewrite elem_of_nil. tauto.
Qed.

(** Extracting a class instantiates and serializes that class only. *)
Lemma extract_class_events W cl entry evs :
  extract_class W cl = Done (entry, evs) →
  ∀ e, e ∈ evs →
       e = EvInstantiate cl ∨ e = EvSerialize cl ∨ ∃ text, e = EvStderr text.
Proof.
  unfold extract_class. destruct (cl_serialize_raises _); [done|].
  destruct (fold_left _ _ _) as [entry0 trace0] eqn:Hfold.
  apply extract_keys_spec in Hfold as [_ Hevs].
  destruct (dict_get "OTIO_SCHEMA" _) as [label|]; [|done].
  intros [= <- <-] e He. destruct (Hevs e He) as [Hin|?]; [|naive_solver].
  apply elem_of_cons in Hin as [->|Hin]; [by left|].
  apply list_elem_of_singleton in Hin as ->. right; by left.
Qed.

Lemma extract_class_label W cl entry evs :
  extract_class W cl = Done (entry, evs) →
  dict_get "OTIO_SCHEMA" entry
  = dict_get "OTIO_SCHEMA" (cl_field_dict (class_at W cl))
  ∧ is_Some (dict_get "OTIO_SCHEMA" entry).
Proof.
  unfold extract_class. destruct (cl_serialize_raises _); [done|]. destruct (fold_left _ _ _) as [entry0 trace0].
  destruct (dict_get "OTIO_SCHEMA" (cl_field_dict _)) as [label|]; [|done].
  intros [= <- <-]. rewrite dict_get_set_eq. eauto.
Qed.

(** ** One namespace *)

Lemma extract_into_terminated W cl acc : terminated (extract_into W cl acc).
Proof.
  unfold extract_into, extract_class. destruct acc as [model trace].
  case_bool_decide; [done|]. destruct (cl_serialize_raises _); [done|].
  destruct (fold_left _ _ _) as [entry0 trace0].
  by destruct (dict_get "OTIO_SCHEMA" _).
Qed.

Lemma visit_module_terminated W m st : terminated (visit_module W m st).
Proof.
  unfold visit_module. apply bind_terminated.
  - apply (for_each_terminated (fun _ => True)); [|done..].
    intros. apply extract_into_terminated.
  - by intros [model trace] _.
Qed.

Lemma visit_module_Done W m st st' :
  visit_module W m st = Done st' →
  ∃ model trace,
    for_each (extract_into W) (serializable_classes W (st_classes st) m)
             ([], st_trace st ++ [EvVisit m]) = Done (model, trace)
    ∧ st' = {| st_classes := dict_update (st_classes st) model;
               st_modules := {[m]} ∪ st_modules st;
               st_trace := trace |}.
Proof.
  unfold visit_module. intros ([model trace] & Hloop & [= <-])%bind_Done.
  eauto.
Qed.

Lemma visit_module_modules W m st st' :
  visit_module W m st = Done st' → st_modules st' = {[m]} ∪ st_modules st.
Proof. by intros (model & trace & _ & ->)%visit_module_Done. Qed.

Lemma extract_into_extracted_from W trace0 cl acc acc' :
  extracted_from W trace0 acc → extract_into W cl acc = Done acc' →
  extracted_from W trace0 acc'.
Proof.
  destruct acc as [model trace]. unfold extract_into.
  intros [Hmodel Htrace]. case_bool_decide as Hskip; [by intros [= <-]|].
  intros ([entry evs] & Hcl & [= <-])%bind_Done. split; simpl in *.
  - intros cl' entry' [[= -> ->]|Hin]%elem_of_dict_set; [eauto | by apply Hmodel].
  - intros e [Hin|Hin]%elem_of_app; [by apply Htrace|].
    destruct (extract_class_events _ _ _ _ Hcl e Hin) as [->|[->|?]];
      [right; left; eauto..|by right; right].
Qed.

(** ** The traversal *)

Lemma visit_module_good W m st st' :
  good_state W st → visit_module W m st = Done st' → good_state W st'.
Proof.
  intros [Hcls Htr] (model & trace & Hloop & ->)%visit_module_Done.
  assert (extracted_from W (st_trace st ++ [EvVisit m]) (model, trace))
    as [Hmodel Htrace].
  { eapply (for_each_invariant (extracted_from W _)); [| |exact Hloop].
    - intros cl acc acc' _. apply extract_into_extracted_from.
    - split; simpl; [by intros ?? ?%elem_of_nil | by left]. }
  split; simpl in *.
  - intros cl entry [?|?]%elem_of_dict_update; [by apply Hmodel | by apply Hcls].
  - intros cl Hskip.
    split; intros [Hin|[(cl' & Hcl' & Heq)|[text Heq]]]%Htrace.
    all: try (apply elem_of_app in Hin as [Hin|Hin%list_elem_of_singleton];
              [by apply (Htr cl Hskip) in Hin | done]).
    all: try done.
    all: destruct Heq as [[= ->]|[= ->]]; done.
Qed.

(** An invariant of [visit_module] is an invariant of the whole traversal. *)
Lemma generate_invariant (W : world) (P : gen_state → Prop) :
  (∀ m st st', P st → visit_module W m st = Done st' → P st') →
  ∀ fuel m st st',
    P st → _generate_model_for_module W fuel m st = Done st' → P st'.
Proof.
  intros Hvisit. induction fuel as [|fuel IH]; intros m st st' Hst; [done|].
  cbn [_generate_model_for_module].
  intros (st1 & Hst1 & Hloop)%bind_Done.
  eapply (for_each_invariant P); [| |exact Hloop].
  - intros c s s' _. apply IH.
  - by eapply Hvisit.
Qed.

Lemma initial_state_good W : good_state W initial_state.
Proof.
  split; simpl; [by intros ?? ?%elem_of_nil|].
  intros cl _. split; apply not_elem_of_nil.
Qed.

Lemma generate_model_good W st :
  _generate_model W = Done st → good_state W st.
Proof.
  apply (generate_invariant W (good_state W)).
  - apply visit_module_good.
  - apply initial_state_good.
Qed.

(** C9: a class on the skip list ([SerializableObject], [UnknownSchema],
    [TestObject]) is never a key of the model the extractor returns and is
    never instantiated or serialized during the extraction, whatever the
    traversed namespaces contain. *)
Theorem skipped_classes_never_extracted (W : world) (st : gen_state)
    (cl : class_id) :
  _generate_model W = Done st →
  cl ∈ SKIP_CLASSES W →
  (cl ∉ dict_keys (st_classes st))
  ∧ (EvInstantiate cl ∉ st_trace st)
  ∧ (EvSerialize cl ∉ st_trace st).
Proof.
  intros [Hcls Htr]%generate_model_good Hskip. split; [|by apply Htr].
  intros (entry & Hget)%dict_keys_get.
  apply dict_get_Some_elem_of in Hget. by destruct (Hcls _ _ Hget).
Qed.

(** ** Termination of the traversal *)

Lemma elem_of_all_modules W m : m ∈ all_modules W ↔ m < length (heap_modules W).
Proof. unfold all_modules. rewrite elem_of_list_to_set, elem_of_seq. lia. Qed.

Lemma size_all_modules W : size (all_modules W) = length (heap_modules W).
Proof.
  unfold all_modules. rewrite size_list_to_set by apply NoDup_seq.
  apply length_seq.
Qed.

Lemma module_at_outside W m :
  m ∉ all_modules W → module_at W m = empty_module.
Proof.
  rewrite elem_of_all_modules. intros Hm. unfold module_at.
  by rewrite lookup_ge_None_2 by lia.
Qed.

Lemma elem_of_new_mods W modules m c :
  c ∈ new_mods W modules m →
  (c ∉ modules) ∧ Mod c ∈ mod_dict (module_at W m).
Proof.
  unfold new_mods. rewrite elem_of_sorted_by, list_elem_of_omap.
  intros (t & [Hnew Hin]%list_elem_of_filter & Ht).
  destruct t as [c'| |]; simplify_eq/=.
  apply andb_prop in Hnew as [Hnew _]. by apply bool_decide_eq_true in Hnew.
Qed.

(** A call returns with the namespace it was given, and everything visited
    before, in the shared set. *)
Lemma generate_modules_mono W fuel m st st' :
  _generate_model_for_module W fuel m st = Done st' →
  {[m]} ∪ st_modules st ⊆ st_modules st'.
Proof.
  revert m st st'. induction fuel as [|fuel IH]; intros m st st'; [done|].
  cbn [_generate_model_for_module].
  intros (st1 & Hst1%visit_module_modules & Hloop)%bind_Done.
  eapply (for_each_invariant (fun s => {[m]} ∪ st_modules st ⊆ st_modules s));
    [| |exact Hloop].
  - intros c s s' _ Hs Hc%IH. set_solver.
  - by rewrite Hst1.
Qed.

(** A call terminates when the calls it makes do: those are on namespaces
    that were not in the set, with the set grown. *)
Lemma generate_step W fuel m st :
  (∀ c st', c ∉ {[m]} ∪ st_modules st →
            {[m]} ∪ st_modules st ⊆ st_modules st' →
            terminated (_generate_model_for_module W fuel c st')) →
  terminated (_generate_model_for_module W (S fuel) m st).
Proof.
  intros Hcalls. cbn [_generate_model_for_module].
  apply bind_terminated; [apply visit_module_terminated|].
  intros st1 Hst1%visit_module_modules.
  apply (for_each_terminated
           (fun s => {[m]} ∪ st_modules st ⊆ st_modules s)).
  - intros c s [Hc _]%elem_of_new_mods Hs. apply Hcalls; [|done].
    by rewrite <- Hst1.
  - intros c s s' _ Hs Hc%generate_modules_mono. set_solver.
  - by rewrite Hst1.
Qed.

(** A call on an address outside the heap finds nothing and returns. *)
Lemma generate_outside W fuel m st :
  m ∉ all_modules W →
  terminated (_generate_model_for_module W (S fuel) m st).
Proof.
  intros Hm. cbn [_generate_model_for_module].
  apply bind_terminated; [apply visit_module_terminated|].
  intros st1 _. unfold new_mods. by rewrite (module_at_outside W m Hm).
Qed.

(** Two units of fuel for each namespace not yet in the set, and two more,
    are enough. *)
Lemma generate_terminates_from W k :
  ∀ fuel m st,
    size (all_modules W ∖ st_modules st) ≤ k → 2 * k + 2 ≤ fuel →
    terminated (_generate_model_for_module W fuel m st).
Proof.
  induction k as [|k IH]; intros fuel m st Hsize Hfuel.
  all: destruct fuel as [|fuel]; [lia|].
  all: apply generate_step; intros c st' Hc Hst'.
  all: destruct fuel as [|fuel]; [lia|].
  all: destruct (decide (c ∈ all_modules W)) as [Hin|Hout];
         [|by apply generate_outside].
  all: assert (size (all_modules W ∖ ({[c]} ∪ st_modules st'))
               < size (all_modules W ∖ st_modules st)) as Hless
         by (apply subset_size; set_solver).
  - lia.
  - apply generate_step; intros g st'' Hg Hst''. apply IH; [|lia].
    assert (size (all_modules W ∖ st_modules st'')
            ≤ size (all_modules W ∖ ({[c]} ∪ st_modules st')))
      by (apply subseteq_size; set_solver).
    lia.
Qed.

(** More fuel does not change the result of a call that terminated. *)
Lemma for_each_agree {A S} (f g : A → S → outcome S) l :
  (∀ x s, terminated (f x s) → g x s = f x s) →
  ∀ s, terminated (for_each f l s) → for_each g l s = for_each f l s.
Proof.
  intros Hfg. induction l as [|x l IH]; intros s; simpl; [done|].
  destruct (f x s) as [s1| |] eqn:Hf; simpl.
  - intros Hloop. rewrite Hfg, Hf by (by rewrite Hf). simpl. by apply IH.
  - intros _. rewrite Hfg, Hf by (by rewrite Hf). done.
  - done.
Qed.

Lemma generate_fuel_mono W fuel fuel' m st :
  fuel ≤ fuel' →
  terminated (_generate_model_for_module W fuel m st) →
  _generate_model_for_module W fuel' m st
  = _generate_model_for_module W fuel m st.
Proof.
  revert fuel' m st. induction fuel as [|fuel IH]; intros fuel' m st Hle;
    [done|].
  destruct fuel' as [|fuel']; [lia|]. cbn [_generate_model_for_module].
  destruct (visit_module W m st) as [st1| |]; simpl; [|done..].
  apply for_each_agree. intros c s. apply IH. lia.
Qed.

(** C6: the traversal terminates on every namespace graph, cycles and
    back-references included: the heap of a world is finite, its namespaces
    may contain each other in any way, and with [enough_fuel] or more the
    call on the root returns (or raises) and gives the result of
    [_generate_model]. *)
Theorem generate_model_terminates (W : world) (fuel : nat) :
  enough_fuel W ≤ fuel →
  terminated (_generate_model_for_module W fuel (otio W) initial_state)
  ∧ _generate_model_for_module W fuel (otio W) initial_state
    = _generate_model W.
Proof.
  intros Hfuel.
  assert (terminated (_generate_model W)) as Hterm.
  { apply (generate_terminates_from W (length (heap_modules W)));
      [|unfold enough_fuel; lia].
    rewrite <- size_all_modules. apply subseteq_size. set_solver. }
  unfold _generate_model in *.
  rewrite (generate_fuel_mono W (enough_fuel W) fuel) by done. done.
Qed.

(** ** The search for a class in the namespaces *)

Lemma reachable_weaken W avoid avoid' a b :
  avoid' ⊆ avoid → reachable W avoid a b → reachable W avoid' a b.
Proof.
  intros Hsub. apply rtc_subrel. intros x y [? ?]. split; [done|set_solver].
Qed.

Lemma elem_of_child_modules W m c : c ∈ child_modules W m ↔ member W m c.
Proof.
  unfold child_modules, member. rewrite list_elem_of_omap. split.
  - intros (t & Hin & Ht). destruct t; by simplify_eq/=.
  - intros Hin. by exists (Mod c).
Qed.

(** The loop over the children, given what the recursive call does on
    them. *)
Lemma search_children_spec
    (P : gset mod_id → option string → gset mod_id → Prop) rec subs :
  (∀ S, P S None S) →
  (∀ S c S' r, c ∈ subs → c ∉ S → rec c ({[c]} ∪ S) = Done (r, S') →
               ∀ S0, P S0 None S → P S0 r S' ) →
  ∀ S r S', search_children rec subs S = Done (r, S') →
            ∀ S0, P S0 None S → P S0 r S'.
Proof.
  intros Hnone Hrec. induction subs as [|c subs IH]; intros S r S'; simpl.
  - by intros [= <- <-].
  - case_bool_decide as Hc.
    + apply IH. intros ?????. apply Hrec. by right.
    + intros ([r1 S1] & Hcall & Hrest)%bind_Done S0 HS0.
      assert (P S0 r1 S1) as H1.
      { eapply Hrec; [by left|exact Hc|exact Hcall|exact HS0]. }
      destruct r1 as [name|]; [by injection Hrest as <- <-|].
      eapply IH; [|exact Hrest|exact H1].
      intros ?????. apply Hrec. by right.
Qed.

Lemma search_sound W fuel cl m S r S' :
  _search_mod_recursively W fuel cl m S = Done (r, S') →
  search_result W cl m S r S'.
Proof.
  revert m S r S'. induction fuel as [|fuel IH]; intros m S r S'; [done|].
  cbn [_search_mod_recursively]. case_bool_decide as Hholds.
  - intros [= <- <-]. split; [done|]. intros name [= <-].
    exists m. split_and!; [apply rtc_refl|done|done|by left].
  - intros Hloop.
    eapply (search_children_spec
              (fun S0 r S' => search_result W cl m S0 r S'));
      [| |exact Hloop|].
    + intros S1. split; [done|by intros ? [=]].
    + intros S1 c S2 r2 Hc%elem_of_child_modules HcS1 Hcall%IH S0 [HS0 _].
      destruct Hcall as [Hsub Hfound]. split; [set_solver|].
      intros name Hname. destruct (Hfound name Hname) as (x & Hx & ? & ? & Hor).
      exists x. split_and!; [|done|done|].
      * eapply rtc_l; [split; [exact Hc|set_solver]|].
        eapply reachable_weaken; [|exact Hx]. set_solver.
      * right. destruct Hor as [->|?]; set_solver.
    + split; [done|by intros ? [=]].
Qed.

Lemma search_children_returns rec subs (P : gset mod_id → Prop) :
  (∀ S c, c ∈ subs → c ∉ S → P S → returns (rec c ({[c]} ∪ S))) →
  (∀ S c r S', c ∈ subs → P S → rec c ({[c]} ∪ S) = Done (r, S') → P S') →
  ∀ S, P S → returns (search_children rec subs S).
Proof.
  induction subs as [|c subs IH]; intros Hret Hinv S HS; simpl;
    [by eexists|].
  assert (∀ S, P S → returns (search_children rec subs S)) as IH'.
  { apply IH.
    - intros S0 c0 Hc0. apply Hret. by right.
    - intros S0 c0 r0 S1 Hc0. apply Hinv. by right. }
  case_bool_decide as Hc; [by apply IH'|].
  apply bind_returns; [apply Hret; [by left|done..]|].
  intros [[name|] S1] Hcall; [by eexists|].
  apply IH'. eapply Hinv; [by left|exact HS|exact Hcall].
Qed.

(** A search returns when the searches it starts do: those are on
    namespaces that were not in the set, which has grown. *)
Lemma search_step W cl fuel m S :
  (∀ c S1, c ∉ S1 → S ⊆ S1 →
           returns (_search_mod_recursively W fuel cl c ({[c]} ∪ S1))) →
  returns (_search_mod_recursively W (Datatypes.S fuel) cl m S).
Proof.
  intros Hcalls. cbn [_search_mod_recursively].
  case_bool_decide; [by eexists|].
  apply (search_children_returns _ _ (fun S1 => S ⊆ S1)); [| |done].
  - intros S1 c _ Hc HS1. by apply Hcalls.
  - intros S1 c r S2 _ HS1 Hcall. apply search_sound in Hcall as [Hsub _].
    set_solver.
Qed.

Lemma search_outside W cl fuel m S :
  m ∉ all_modules W →
  returns (_search_mod_recursively W (Datatypes.S fuel) cl m S).
Proof.
  intros Hm. cbn [_search_mod_recursively]. unfold child_modules.
  rewrite (module_at_outside W m Hm). simpl.
  try case_bool_decide; by eexists.
Qed.

(** One unit of fuel for each namespace not yet in the set, and two more,
    are enough. *)
Lemma search_returns_from W cl k :
  ∀ fuel m S,
    size (all_modules W ∖ S) ≤ k → k + 2 ≤ fuel →
    returns (_search_mod_recursively W fuel cl m S).
Proof.
  induction k as [|k IH]; intros fuel m S Hsize Hfuel.
  all: destruct fuel as [|fuel]; [lia|].
  all: apply search_step; intros c S1 Hc HS1.
  all: destruct fuel as [|fuel]; [lia|].
  all: destruct (decide (c ∈ all_modules W)) as [Hin|Hout];
         [|by apply search_outside].
  all: assert (size (all_modules W ∖ ({[c]} ∪ S1)) < size (all_modules W ∖ S))
         as Hless by (apply subset_size; set_solver).
  - lia.
  - apply IH; lia.
Qed.

(** The search of [_remap_to_python_modules] always returns. *)
Lemma search_terminates W cl m S :
  returns (_search_mod_recursively W (search_fuel W) cl m S).
Proof.
  apply (search_returns_from W cl (length (heap_modules W)));
    [|unfold search_fuel; lia].
  rewrite <- size_all_modules. apply subseteq_size. set_solver.
Qed.

Lemma search_holds W cl m S :
  holds W m cl →
  _search_mod_recursively W (search_fuel W) cl m S
  = Done (Some (mod_name (module_at W m)), S).
Proof.
  intros Hholds. unfold search_fuel. rewrite Nat.add_comm.
  cbn [Nat.add _search_mod_recursively]. by rewrite bool_decide_eq_true_2.
Qed.

(** ** Namespace remapping *)

Lemma search_each_returns W cl mods S : returns (search_each W cl mods S).
Proof.
  revert S. induction mods as [|m mods IH]; intros S; simpl; [by eexists|].
  destruct (search_terminates W cl m S) as [[[name|] S'] ->]; simpl;
    [by eexists | apply IH].
Qed.

Lemma first_holder_app W cl l l' :
  first_holder W cl (l ++ l')
  = match first_holder W cl l with
    | Some x => Some x
    | None => first_holder W cl l'
    end.
Proof.
  unfold first_holder. rewrite filter_app. by destruct (filter _ l).
Qed.

Lemma first_holder_cons W cl m l :
  first_holder W cl (m :: l)
  = if decide (holds W m cl) then Some m else first_holder W cl l.
Proof. unfold first_holder. rewrite filter_cons. by destruct (decide _). Qed.

Lemma first_holder_Some W cl l x :
  first_holder W cl l = Some x → x ∈ l ∧ holds W x cl.
Proof.
  induction l as [|m l IH]; [done|]. rewrite first_holder_cons.
  destruct (decide (holds W m cl)).
  - intros [= <-]. split; [by left|done].
  - intros [? ?]%IH. split; [by right|done].
Qed.

Lemma first_holder_None W cl l :
  first_holder W cl l = None ↔ ∀ x, x ∈ l → ¬ holds W x cl.
Proof.
  induction l as [|m l IH]; [split; [by intros _ ? ?%elem_of_nil|done]|].
  rewrite first_holder_cons. destruct (decide (holds W m cl)) as [Hm|Hm].
  - split; [done|]. intros Hnone. by destruct (Hnone m); [left|].
  - rewrite IH. split.
    + intros Hl x [->|?]%elem_of_cons; [done|by apply Hl].
    + intros Hl x ?. apply Hl. by right.
Qed.

(** *** The search finds the first holder of the walk *)

Lemma search_children_walk W cl srch wlk subs :
  (∀ c S r S', srch c S = Done (r, S') →
               search_as_walked W cl r S' (wlk c S)) →
  ∀ S r S',
    search_children srch subs S = Done (r, S') →
    search_as_walked W cl r S' (walk_children wlk subs S).
Proof.
  intros Hrec. induction subs as [|c subs IH]; intros S r S';
    cbn [search_children walk_children].
  - intros [= <- <-]. by split.
  - case_bool_decide as Hc; [apply IH|].
    intros ([r1 S1] & Hcall%Hrec & Hrest)%bind_Done.
    destruct (wlk c ({[c]} ∪ S)) as [l1 S1'].
    destruct r1 as [name|]; cbn [search_as_walked fst snd] in Hcall.
    + injection Hrest as <- <-. destruct Hcall as (x & Hx & ->).
      destruct (walk_children wlk subs S1') as [l2 S2].
      exists x. cbn [fst]. by rewrite first_holder_app, Hx.
    + destruct Hcall as [-> Hnone]. apply IH in Hrest.
      destruct (walk_children wlk subs S1) as [l2 S2].
      destruct r as [name|]; cbn [search_as_walked fst snd] in *.
      * destruct Hrest as (x & Hx & ->). exists x.
        by rewrite first_holder_app, Hnone.
      * destruct Hrest as [-> Hnone2]. split; [done|].
        by rewrite first_holder_app, Hnone.
Qed.

Lemma search_walk W cl fuel m S r S' :
  _search_mod_recursively W fuel cl m S = Done (r, S') →
  search_as_walked W cl r S' (walk W fuel m S).
Proof.
  revert m S r S'. induction fuel as [|fuel IH]; intros m S r S'; [done|].
  cbn [_search_mod_recursively walk]. case_bool_decide as Hholds.
  - intros [= <- <-]. destruct (walk_children _ _ _) as [l S1].
    exists m. cbn [fst]. by rewrite first_holder_cons, decide_True.
  - intros Hloop%(search_children_walk W cl _ (walk W fuel)); [|exact IH].
    destruct (walk_children _ _ _) as [l S1].
    destruct r as [name|]; cbn [search_as_walked fst snd] in *.
    + destruct Hloop as (x & Hx & ->). exists x.
      by rewrite first_holder_cons, decide_False.
    + destruct Hloop as [-> Hnone]. split; [done|].
      by rewrite first_holder_cons, decide_False.
Qed.

Lemma search_each_walk W cl mods S r :
  search_each W cl mods S = Done r →
  match r with
  | Some name =>
      ∃ x, first_holder W cl (walk_each W mods S) = Some x
           ∧ name = mod_name (module_at W x)
  | None => first_holder W cl (walk_each W mods S) = None
  end.
Proof.
  revert S. induction mods as [|m mods IH]; intros S;
    cbn [search_each walk_each].
  - by intros [= <-].
  - intros ([r1 S1] & Hcall%search_walk & Hrest)%bind_Done.
    destruct (walk W (search_fuel W) m S) as [l S1'].
    destruct r1 as [name|]; cbn [search_as_walked fst snd] in Hcall.
    + injection Hrest as <-. destruct Hcall as (x & Hx & ->). exists x.
      by rewrite first_holder_app, Hx.
    + destruct Hcall as [-> Hnone]. apply IH in Hrest.
      by rewrite first_holder_app, Hnone.
Qed.

(** *** The namespaces of the walk *)

Lemma walk_children_walked W m S0 rec subs :
  (∀ c S1, c ∈ subs → c ∉ S1 → S0 ⊆ S1 →
           walked W c ({[c]} ∪ S1) (rec c ({[c]} ∪ S1))) →
  (∀ c, c ∈ subs → member W m c) →
  ∀ S l S',
    S0 ⊆ S → walk_children rec subs S = (l, S') →
    S ⊆ S'
    ∧ (∀ x, x ∈ l ↔ x ∈ S' ∧ x ∉ S)
    ∧ (∀ c, c ∈ subs → c ∈ S')
    ∧ (∀ x c, x ∈ l → member W x c → c ∈ S')
    ∧ (∀ x, x ∈ l → reachable W S0 m x).
Proof.
  induction subs as [|c subs IH]; intros Hrec Hsubs S l S' HS;
    cbn [walk_children].
  - intros [= <- <-].
    split_and!; [done| |by intros ? ?%elem_of_nil
                |by intros ?? ?%elem_of_nil|by intros ? ?%elem_of_nil].
    intros x. split; [by intros ?%elem_of_nil|by intros [? ?]].
  - assert (∀ S l S',
              S0 ⊆ S → walk_children rec subs S = (l, S') →
              S ⊆ S'
              ∧ (∀ x, x ∈ l ↔ x ∈ S' ∧ x ∉ S)
              ∧ (∀ c, c ∈ subs → c ∈ S')
              ∧ (∀ x c, x ∈ l → member W x c → c ∈ S')
              ∧ (∀ x, x ∈ l → reachable W S0 m x)) as IH'.
    { apply IH.
      - intros c' S1 Hc'. apply Hrec. by right.
      - intros c' Hc'. apply Hsubs. by right. }
    case_bool_decide as Hc.
    + intros Hw. destruct (IH' S l S' HS Hw) as (H1 & H2 & H3 & H4 & H5).
      split_and!; [done|done| |done|done].
      intros c' [->|?]%elem_of_cons; [by apply H1|by apply H3].
    + pose proof (Hrec c S (list_elem_of_here _ _) Hc HS) as Hw.
      destruct (rec c ({[c]} ∪ S)) as [l1 S1].
      destruct (walk_children rec subs S1) as [l2 S2] eqn:Hrest.
      intros [= <- <-]. destruct Hw as (Ha & Hb & Hcl & Hd).
      cbn [fst snd] in *.
      destruct (IH' S1 l2 S2) as (H1 & H2 & H3 & H4 & H5); [set_solver|done|].
      split_and!.
      * set_solver.
      * intros x. rewrite elem_of_app, Hb, H2.
        destruct (decide (x ∈ S1)), (decide (x = c)); set_solver.
      * intros c' [->|?]%elem_of_cons; [set_solver|by apply H3].
      * intros x c' [Hx|Hx]%elem_of_app Hmem;
          [apply H1; by eapply Hcl|by eapply H4].
      * intros x [Hx|Hx]%elem_of_app; [|by apply H5].
        eapply rtc_l; [split; [apply Hsubs; by left|set_solver]|].
        eapply reachable_weaken; [|by apply Hd]. set_solver.
Qed.

Lemma walk_step W fuel m S :
  (∀ c S1, c ∉ S1 → S ⊆ S1 →
           walked W c ({[c]} ∪ S1) (walk W fuel c ({[c]} ∪ S1))) →
  walked W m S (walk W (Datatypes.S fuel) m S).
Proof.
  intros Hcalls. cbn [walk].
  destruct (walk_children _ _ _) as [l S'] eqn:Hloop.
  apply (walk_children_walked W m S) in Hloop
    as (H1 & H2 & H3 & H4 & H5);
    [|by intros c S1 _; apply Hcalls
     |by intros c ?%elem_of_child_modules|done].
  split_and!; cbn [fst snd].
  - done.
  - intros x. rewrite elem_of_cons, H2. done.
  - intros x c [->|Hx]%elem_of_cons Hmem;
      [by apply H3, elem_of_child_modules|by eapply H4].
  - intros x [->|Hx]%elem_of_cons; [apply rtc_refl|by apply H5].
Qed.

Lemma walk_outside W fuel m S :
  m ∉ all_modules W → walked W m S (walk W (Datatypes.S fuel) m S).
Proof.
  intros Hm. cbn [walk]. unfold child_modules.
  rewrite (module_at_outside W m Hm). cbn.
  split_and!; cbn [fst snd].
  - done.
  - intros x. rewrite list_elem_of_singleton. naive_solver.
  - intros x c ->%list_elem_of_singleton. unfold member.
    rewrite (module_at_outside W m Hm). by intros ?%elem_of_nil.
  - intros x ->%list_elem_of_singleton. apply rtc_refl.
Qed.

(** With one unit of fuel for each namespace not yet in the set, and two
    more, the walk is complete. *)
Lemma walk_walked_from W k :
  ∀ fuel m S,
    size (all_modules W ∖ S) ≤ k → k + 2 ≤ fuel →
    walked W m S (walk W fuel m S).
Proof.
  induction k as [|k IH]; intros fuel m S Hsize Hfuel.
  all: destruct fuel as [|fuel]; [lia|].
  all: apply walk_step; intros c S1 Hc HS1.
  all: destruct fuel as [|fuel]; [lia|].
  all: destruct (decide (c ∈ all_modules W)) as [Hin|Hout];
         [|by apply walk_outside].
  all: assert (size (all_modules W ∖ ({[c]} ∪ S1)) < size (all_modules W ∖ S))
         as Hless by (apply subset_size; set_solver).
  - lia.
  - apply IH; lia.
Qed.

Lemma walk_walked W m S : walked W m S (walk W (search_fuel W) m S).
Proof.
  apply (walk_walked_from W (length (heap_modules W)));
    [|unfold search_fuel; lia].
  rewrite <- size_all_modules. apply subseteq_size. set_solver.
Qed.

Lemma walk_each_walked W mods S :
  ∃ S',
    S ⊆ S'
    ∧ (∀ x, x ∈ walk_each W mods S ↔ x ∈ mods ∨ (x ∈ S' ∧ x ∉ S))
    ∧ (∀ x c, x ∈ walk_each W mods S → member W x c → c ∈ S')
    ∧ (∀ x, x ∈ walk_each W mods S → ∃ M, M ∈ mods ∧ reachable W S M x).
Proof.
  revert S. induction mods as [|m mods IH]; intros S; cbn [walk_each].
  - exists S. split_and!;
      [done| |by intros ?? ?%elem_of_nil|by intros ? ?%elem_of_nil].
    intros x. rewrite !elem_of_nil. naive_solver.
  - pose proof (walk_walked W m S) as Hw.
    destruct (walk W (search_fuel W) m S) as [l S1].
    destruct Hw as (Ha & Hb & Hc & Hd). cbn [fst snd] in *.
    destruct (IH S1) as (S2 & H1 & H2 & H3 & H4).
    exists S2. split_and!.
    + set_solver.
    + intros x. rewrite elem_of_app, elem_of_cons, Hb, H2.
      destruct (decide (x ∈ S1)); set_solver.
    + intros x c [Hx|Hx]%elem_of_app Hmem;
        [apply H1; by eapply Hc|by eapply H3].
    + intros x [Hx|Hx]%elem_of_app.
      * exists m. split; [by left|by apply Hd].
      * destruct (H4 x Hx) as (M & HM & Hreach). exists M.
        split; [by right|]. by eapply reachable_weaken.
Qed.

Lemma walk_head W m S : head (walk W (search_fuel W) m S).1 = Some m.
Proof.
  unfold search_fuel. rewrite Nat.add_comm. cbn [Nat.add walk].
  by destruct (walk_children _ _ _).
Qed.

(** The search comes to the namespaces that are reachable from a canonical
    namespace without entering the opaque ones, and to no other. *)
Lemma search_order_reachable W x :
  x ∈ search_order W
  ↔ ∃ M, M ∈ SEARCH_MODULES W ∧ reachable W (IGNORE_MODS W) M x.
Proof.
  unfold search_order.
  destruct (walk_each_walked W (SEARCH_MODULES W) (IGNORE_MODS W))
    as (S' & H1 & H2 & H3 & H4).
  split; [apply H4|]. intros (M & HM & Hreach).
  assert (M ∈ walk_each W (SEARCH_MODULES W) (IGNORE_MODS W)) as Hin
    by (apply H2; by left).
  clear HM. revert Hin.
  induction Hreach as [|a b x [Hab Hb] _ IH]; [done|].
  intros Ha. apply IH, H2. right. split; [by eapply H3|done].
Qed.

(** C8, as the code has it: a class declared in a non-opaque namespace is
    not remapped.  A class declared in an opaque namespace is documented
    under the name of the first namespace that holds it, in the order of
    the search: [schema], [opentime] and [core] in turn, each walked depth
    first through its member namespaces, in the order of [__dict__],
    entering neither an opaque namespace nor a namespace entered before.
    That namespace is the holder itself, which may lie below the canonical
    namespace it was reached from.  The search comes to exactly the
    namespaces reachable from a canonical one without entering the opaque
    ones, [schema] first; when none of them holds the class, the class
    falls back to its raw declaring namespace. *)
Theorem namespace_remapping (W : world) (cl : class_id) :
  (∀ name, documented_under W cl name ↔ effective_namespace W cl = Done name)
  ∧ (∀ x, x ∈ search_order W
          ↔ ∃ M, M ∈ SEARCH_MODULES W ∧ reachable W (IGNORE_MODS W) M x)
  ∧ head (search_order W) = Some (otio_schema W)
  ∧ (∀ x, first_holder W cl (search_order W) = Some x →
          holds W x cl
          ∧ ∃ M, M ∈ SEARCH_MODULES W ∧ reachable W (IGNORE_MODS W) M x)
  ∧ (first_holder W cl (search_order W) = None
     ↔ ∀ M x, M ∈ SEARCH_MODULES W → reachable W (IGNORE_MODS W) M x →
              ¬ holds W x cl).
Proof.
  split_and!.
  - intros name. unfold effective_namespace, _remap_to_python_modules.
    destruct (search_each_returns W cl (SEARCH_MODULES W) (IGNORE_MODS W))
      as [r Hsearch].
    pose proof (search_each_walk W cl _ _ r Hsearch) as Hwalk.
    fold (search_order W) in Hwalk. split.
    + intros [Hpublic|x Hopaque Hfirst|Hopaque Hnone].
      * by rewrite bool_decide_eq_false_2.
      * rewrite bool_decide_eq_true_2 by done. rewrite Hsearch. simpl.
        destruct r as [name'|]; [|congruence].
        destruct Hwalk as (x' & Hx' & ->). congruence.
      * rewrite bool_decide_eq_true_2 by done. rewrite Hsearch. simpl.
        destruct r as [name'|]; [|done].
        destruct Hwalk as (x' & Hx' & _). congruence.
    + case_bool_decide as Hopaque.
      * rewrite Hsearch. simpl. destruct r as [name'|]; intros [= <-].
        -- destruct Hwalk as (x & Hx & ->).
           by apply documented_under_holder.
        -- by apply documented_fallback.
      * intros [= <-]. by apply documented_where_declared.
  - apply search_order_reachable.
  - unfold search_order, SEARCH_MODULES. cbn [walk_each].
    pose proof (walk_head W (otio_schema W) (IGNORE_MODS W)) as Hhead.
    destruct (walk W (search_fuel W) (otio_schema W) (IGNORE_MODS W))
      as [l S1].
    cbn [fst] in Hhead. by destruct l as [|m0 l].
  - intros x [Hin Hholds]%first_holder_Some. split; [done|].
    by apply search_order_reachable.
  - rewrite first_holder_None. split.
    + intros Hnone M x HM Hreach. apply Hnone, search_order_reachable.
      by exists M.
    + intros Hnone x (M & HM & Hreach)%search_order_reachable.
      by eapply Hnone.
Qed.

(** ** The layout of the documents *)

Lemma write_props_spec items b :
  fold_left write_prop items b
  = (b.1 ++ ((fun kv => PROP_HEADER kv.1 kv.2)
               <$> filter (fun kv => kv.1 ∉ SKIP_KEYS) items),
     b.2 ++ ((fun kv => PROP_HEADER_NO_HELP kv.1)
               <$> filter (fun kv => kv.1 ∉ SKIP_KEYS) items)).
Proof.
  revert b. induction items as [|[k h] items IH]; intros [full short]; simpl.
  - by rewrite !app_nil_r.
  - rewrite IH, filter_cons. cbn [fst snd].
    destruct (decide (k ∉ SKIP_KEYS)) as [Hkeep|Hskip].
    + rewrite bool_decide_eq_false_2 by done. cbn [fst snd fmap list_fmap].
      by rewrite <- !app_assoc.
    + rewrite bool_decide_eq_true_2; [done|]. by apply dec_stable.
Qed.

Lemma write_class_spec W model this_mod cl b b' :
  write_class W model this_mod cl b = Done b' →
  ∃ c, section_of model cl c
       ∧ b' = (b.1 ++ (class_section_chunks W this_mod c).1,
               b.2 ++ (class_section_chunks W this_mod c).2).
Proof.
  unfold write_class.
  destruct (dict_get cl model) as [entry|] eqn:Hentry; [|done].
  destruct (dict_get "OTIO_SCHEMA" entry) as [label|] eqn:Hlabel; [|done].
  intros [= <-].
  exists {| sec_class := cl; sec_label := label;
            sec_props := written_items entry |}.
  split; [split; [done|]; by exists entry|].
  rewrite write_props_spec. simpl. unfold written_items.
  by rewrite <- !app_assoc.
Qed.

Lemma write_classes_spec W model this_mod cls b b' :
  for_each (write_class W model this_mod) cls b = Done b' →
  ∃ secs, Forall2 (section_of model) cls secs
          ∧ b' = (b.1 ++ (secs ≫= fun c => (class_section_chunks W this_mod c).1),
                  b.2 ++ (secs ≫= fun c => (class_section_chunks W this_mod c).2)).
Proof.
  revert b. induction cls as [|cl cls IH]; intros b; simpl.
  - intros [= <-]. exists []. split; [constructor|].
    destruct b. simpl. by rewrite !app_nil_r.
  - intros (b1 & (c & Hc & ->)%write_class_spec & (secs & Hsecs & ->)%IH)%bind_Done.
    exists (c :: secs). split; [by constructor|].
    simpl. by rewrite <- !app_assoc.
Qed.

(** ** Grouping by effective namespace *)

Lemma dict_get_setdefault_append {K A} `{EqDecision K}
    (k p : K) (x : A) (d : list (K * list A)) :
  dict_get p (setdefault_append k x d)
  = if decide (k = p) then Some (default [] (dict_get k d) ++ [x])
    else dict_get p d.
Proof.
  unfold setdefault_append.
  destruct (dict_get k d) as [l|] eqn:Hk; by rewrite dict_get_set.
Qed.

Lemma dict_set_NoDup {K V} `{EqDecision K} (d : list (K * V)) k v :
  NoDup (dict_keys d) → NoDup (dict_keys (dict_set k v d)).
Proof.
  unfold dict_keys. induction d as [|[k0 v0] d IH]; simpl.
  - intros _. apply NoDup_singleton.
  - rewrite !NoDup_cons. intros [Hk0 Hd].
    destruct (decide (k = k0)) as [->|Hne]; simpl; [by rewrite NoDup_cons|].
    rewrite NoDup_cons. split; [|by apply IH].
    intros Hin. apply Hk0.
    apply (dict_keys_set d k k0 v) in Hin as [?|?]; done.
Qed.

Lemma setdefault_append_NoDup {K A} `{EqDecision K}
    (k : K) (x : A) (d : list (K * list A)) :
  NoDup (dict_keys d) → NoDup (dict_keys (setdefault_append k x d)).
Proof.
  unfold setdefault_append. destruct (dict_get k d); apply dict_set_NoDup.
Qed.

Lemma elem_of_dict_get {K V} `{EqDecision K} (d : list (K * V)) k v :
  NoDup (dict_keys d) → (k, v) ∈ d → dict_get k d = Some v.
Proof.
  unfold dict_keys. induction d as [|[k0 v0] d IH]; simpl.
  - by intros _ ?%elem_of_nil.
  - rewrite NoDup_cons. intros [Hk0 Hd] [[= -> ->]|Hin]%elem_of_cons.
    + by rewrite decide_True.
    + rewrite decide_False; [by apply IH|].
      intros ->. apply Hk0. apply list_elem_of_fmap. by exists (k0, v).
Qed.

(** The loop that fills [modules]: each class is appended to the list of
    its effective namespace. *)
Lemma group_loop_spec W l acc modules :
  for_each (fun cl modules =>
              modobj ← effective_namespace W cl;
              Done (setdefault_append modobj cl modules)) l acc
  = Done modules →
  (NoDup (dict_keys acc) → NoDup (dict_keys modules))
  ∧ (∀ cl, cl ∈ l → returns (effective_namespace W cl))
  ∧ ∀ p, dict_get p modules
         = match filter (fun cl => effective_namespace W cl = Done p) l with
           | [] => dict_get p acc
           | found => Some (default [] (dict_get p acc) ++ found)
           end.
Proof.
  revert acc. induction l as [|cl l IH]; intros acc; simpl.
  - intros [= <-]. split_and!; [done|by intros ? ?%elem_of_nil|done].
  - intros (acc1 & (p0 & Hp0 & [= <-])%bind_Done & Hrest)%bind_Done.
    destruct (IH _ Hrest) as (Hnodup & Hret & Hget). split_and!.
    + intros Hacc. by apply Hnodup, setdefault_append_NoDup.
    + intros cl' [->|?]%elem_of_cons; [by exists p0 | by apply Hret].
    + intros p. rewrite Hget, filter_cons, dict_get_setdefault_append, Hp0.
      destruct (decide (p0 = p)) as [->|Hne].
      * rewrite decide_True by done. simpl.
        destruct (filter _ l); [done|]. by rewrite <- app_assoc.
      * rewrite decide_False by congruence. done.
Qed.

Lemma group_classes_spec W model modules :
  group_classes W model = Done modules →
  NoDup (dict_keys modules)
  ∧ (∀ cl, cl ∈ dict_keys model → returns (effective_namespace W cl))
  ∧ ∀ p members, (p, members) ∈ modules →
                 members = classes_under W model p ∧ members ≠ [].
Proof.
  intros (Hnodup & Hret & Hget)%group_loop_spec.
  specialize (Hnodup (NoDup_nil_2)). split_and!; [done..|].
  intros p members Hin%elem_of_dict_get; [|done].
  rewrite Hget in Hin. unfold classes_under.
  destruct (filter _ (dict_keys model)); simplify_eq/=. done.
Qed.

(** ** The groups in writing order *)

Lemma write_group_spec W model entry cur b cur' b' :
  write_group W model entry (cur, b) = Done (cur', b') →
  ∃ g, group_of W model entry g
       ∧ grp_heading g
         = bool_decide (Some (first_two_segments entry.1) ≠ cur)
       ∧ cur' = Some (first_two_segments entry.1)
       ∧ b' = (b.1 ++ (group_section_chunks W g).1,
               b.2 ++ (group_section_chunks W g).2).
Proof.
  destruct entry as [path members]. unfold write_group.
  set (this_mod := first_two_segments path).
  case_bool_decide as Hcur.
  - intros (b1 & (secs & Hsecs & ->)%write_classes_spec & [= <- <-])%bind_Done.
    exists {| grp_path := path; grp_heading := true; grp_classes := secs |}.
    split_and!; [by split|by rewrite bool_decide_eq_true_2|done|].
    unfold group_section_chunks, heading_chunks. simpl.
    by rewrite <- !app_assoc.
  - intros (b1 & (secs & Hsecs & ->)%write_classes_spec & [= <- <-])%bind_Done.
    exists {| grp_path := path; grp_heading := false; grp_classes := secs |}.
    subst this_mod. cbn [fst snd].
    split_and!; [by split| |done..].
    simpl. rewrite bool_decide_eq_false_2; [done|]. by intros Hne.
Qed.

Lemma write_groups_spec W model entries cur b cur' b' :
  for_each (write_group W model) entries (cur, b) = Done (cur', b') →
  ∃ groups,
    Forall2 (group_of W model) entries groups
    ∧ headings_from cur groups
    ∧ b' = (b.1 ++ (groups ≫= fun g => (group_section_chunks W g).1),
            b.2 ++ (groups ≫= fun g => (group_section_chunks W g).2)).
Proof.
  revert cur b. induction entries as [|entry entries IH]; intros cur b; simpl.
  - intros [= <- <-]. exists []. split_and!; [constructor|done|].
    destruct b. simpl. by rewrite !app_nil_r.
  - intros ([cur1 b1] & Hgroup & Hrest)%bind_Done.
    apply write_group_spec in Hgroup as (g & Hg & Hhead & -> & ->).
    apply IH in Hrest as (groups & Hgroups & Hheads & ->).
    exists (g :: groups). split_and!; [by constructor| |].
    + simpl. destruct Hg as [-> _]. done.
    + simpl. by rewrite <- !app_assoc.
Qed.

Lemma headings_from_rule cur groups :
  headings_from cur groups →
  ∀ i g g', groups !! i = Some g → groups !! S i = Some g' →
    (grp_heading g' = true
     ↔ take 2 (split_dot (grp_path g')) ≠ take 2 (split_dot (grp_path g))).
Proof.
  revert cur. induction groups as [|g0 groups IH]; intros cur; [done|].
  intros [_ Hrest] i g g'. destruct i as [|i]; simpl.
  - intros [= ->] Hg'. destruct groups as [|g1 groups]; simplify_eq/=.
    destruct Hrest as [-> _].
    rewrite bool_decide_eq_true, <- first_two_segments_inj.
    split; [intros Hne Heq; apply Hne; by rewrite Heq | by intros Hne [= Heq]].
  - by apply (IH _ Hrest).
Qed.

Lemma headings_from_None_rule groups :
  headings_from None groups → heading_rule groups.
Proof.
  intros Hheads. split; [|by eapply headings_from_rule].
  intros g Hg. destruct groups as [|g0 groups]; simplify_eq/=.
  by destruct Hheads as [-> _].
Qed.

Lemma write_chunks_spec W model b :
  write_chunks W model = Done b →
  ∃ groups, groups_written W model groups ∧ b = document_chunks W groups.
Proof.
  unfold write_chunks.
  intros (modules & Hmodules & ([cur b'] & Hloop & [= <-])%bind_Done)%bind_Done.
  apply write_groups_spec in Hloop as (groups & Hgroups & Hheads & ->).
  exists groups. split; [|done].
  exists modules. split_and!; [done..|by apply headings_from_None_rule].
Qed.

Lemma groups_written_paths W model groups :
  groups_written W model groups →
  StronglySorted str_le (grp_path <$> groups) ∧ NoDup (grp_path <$> groups).
Proof.
  intros (modules & (Hnodup & _)%group_classes_spec & Hgroups & _).
  assert (grp_path <$> groups = fst <$> sorted_groups modules) as ->.
  { clear Hnodup. induction Hgroups as [|e g es gs [Hg _] _ IH]; [done|].
    csimpl. by rewrite Hg, IH. }
  split.
  - apply StronglySorted_keys, sorted_by_StronglySorted.
  - unfold sorted_groups. by rewrite sorted_by_perm.
Qed.

Lemma groups_written_classes W model groups g :
  groups_written W model groups → g ∈ groups →
  sec_class <$> grp_classes g
  = sorted_by (class_str W) (classes_under W model (grp_path g))
  ∧ grp_classes g ≠ []
  ∧ Forall (fun c => section_of model (sec_class c) c) (grp_classes g).
Proof.
  intros (modules & (_ & _ & Hmembers)%group_classes_spec & Hgroups & _) Hg.
  apply list_elem_of_lookup in Hg as [i Hi].
  destruct (Forall2_lookup_r _ _ _ _ _ Hgroups Hi)
    as ([p members] & Hentry & [Hpath Hsecs]).
  apply list_elem_of_lookup_2, elem_of_sorted_by, Hmembers in Hentry
    as [-> Hne].
  simpl in *. rewrite Hpath.
  assert (sec_class <$> grp_classes g
          = sorted_by (class_str W) (classes_under W model p)) as Heq.
  { clear Hne. induction Hsecs as [|cl c cls secs [Hc _] _ IH]; [done|].
    csimpl. by rewrite Hc, IH. }
  split_and!; [done| |].
  - intros Hnil. rewrite Hnil in Heq. simpl in Heq.
    apply Hne. apply Permutation_nil_r. by rewrite <- (sorted_by_perm (class_str W)), <- Heq.
  - clear Heq Hne. induction Hsecs as [|cl c cls secs Hc _ IH]; [done|].
    constructor; [|done]. destruct Hc as [Hc ?]. by rewrite Hc.
Qed.

Lemma written_items_sorted entry :
  StronglySorted str_le (written_items entry).*1.
Proof.
  unfold written_items, sorted_items.
  apply (StronglySorted_keys fst), StronglySorted_filter,
    sorted_by_StronglySorted.
Qed.

Lemma groups_written_cover W model groups cl :
  groups_written W model groups → cl ∈ dict_keys model →
  ∃ g, g ∈ groups ∧ cl ∈ sec_class <$> grp_classes g.
Proof.
  intros Hgroups Hcl.
  pose proof Hgroups as (modules & Hmodules & Hforall & _).
  apply (group_loop_spec W) in Hmodules as (_ & Hret & Hget).
  destruct (Hret cl Hcl) as [p Hp].
  assert (cl ∈ classes_under W model p) as Hunder
    by (by apply list_elem_of_filter).
  specialize (Hget p). fold (classes_under W model p) in Hget.
  destruct (classes_under W model p) as [|cl0 found] eqn:Hfound;
    [by apply elem_of_nil in Hunder|].
  apply dict_get_Some_elem_of, (elem_of_sorted_by fst) in Hget.
  apply list_elem_of_lookup in Hget as [i Hi].
  destruct (Forall2_lookup_l _ _ _ _ _ Hforall Hi) as (g & Hg & [Hpath _]).
  apply list_elem_of_lookup_2 in Hg. exists g. split; [done|].
  destruct (groups_written_classes W model groups g Hgroups Hg) as [-> _].
  rewrite elem_of_sorted_by, Hpath. simpl. by rewrite Hfound.
Qed.

(** C7: the order of the two documents.  Both are the same groups written
    in the same order, each through its own templates.  The groups are the
    effective namespaces of the model's classes, in lexicographic order of
    the full path and without repetition; the first group has a namespace
    heading and a later group has one exactly when its first two path
    segments differ from those of the group before it; the classes of a
    group are in lexicographic order of [str(cl)]; the fields of a class are
    in lexicographic order of their keys. *)
Theorem documents_are_ordered (W : world) (model : model_t)
    (full short : string) :
  _write_documentation W model = Done (full, short) →
  ∃ groups : list group_section,
    documents_in_order W model full short groups.
Proof.
  unfold _write_documentation.
  intros (b & (groups & Hgroups & ->)%write_chunks_spec & [= <- <-])%bind_Done.
  exists groups. unfold documents_in_order.
  destruct (groups_written_paths W model groups Hgroups) as [Hsorted Hnodup].
  split_and!; [done..| | |].
  - by destruct Hgroups as (_ & _ & _ & ?).
  - intros cl. by apply (groups_written_cover W).
  - intros g Hg.
    destruct (groups_written_classes W model groups g Hgroups Hg)
      as (Hclasses & _ & Hsecs).
    split_and!.
    + by rewrite Hclasses, sorted_by_perm.
    + rewrite (list_fmap_compose sec_class (class_str W)), Hclasses.
      apply StronglySorted_keys, sorted_by_StronglySorted.
    + intros c Hc. rewrite Forall_forall in Hsecs.
      specialize (Hsecs c Hc). split; [done|].
      destruct Hsecs as (_ & entry & _ & _ & ->).
      apply written_items_sorted.
Qed.

(** ** Rendering returns *)

(** The remapping always yields a namespace. *)
Lemma effective_namespace_returns W cl : returns (effective_namespace W cl).
Proof.
  unfold effective_namespace, _remap_to_python_modules.
  case_bool_decide; [|by eexists].
  destruct (search_each_returns W cl (SEARCH_MODULES W) (IGNORE_MODS W))
    as [[name|] ->]; simpl; by eexists.
Qed.

Lemma group_classes_returns W model : returns (group_classes W model).
Proof.
  unfold group_classes. apply (for_each_returns (fun _ => True)); [|done..].
  intros cl modules _ _.
  destruct (effective_namespace_returns W cl) as [p ->]. by eexists.
Qed.

Lemma write_class_returns W model this_mod cl b :
  labelled model → cl ∈ dict_keys model →
  returns (write_class W model this_mod cl b).
Proof.
  intros Hlabelled (entry & Hentry)%dict_keys_get. unfold write_class.
  rewrite Hentry.
  destruct (Hlabelled cl entry) as [label ->];
    [by apply dict_get_Some_elem_of | by eexists].
Qed.

Lemma write_group_returns W model path members st :
  labelled model → (∀ cl, cl ∈ members → cl ∈ dict_keys model) →
  returns (write_group W model (path, members) st).
Proof.
  intros Hlabelled Hmembers. destruct st as [cur b]. unfold write_group.
  case_bool_decide.
  all: apply bind_returns; [|by eexists].
  all: apply (for_each_returns (fun _ => True)); [|done..].
  all: intros cl b' Hcl%elem_of_sorted_by _.
  all: by apply write_class_returns, Hmembers.
Qed.

(** The renderer returns on every model that has its labels. *)
Lemma write_chunks_returns W model :
  labelled model → returns (write_chunks W model).
Proof.
  intros Hlabelled. unfold write_chunks.
  apply bind_returns; [apply group_classes_returns|].
  intros modules (_ & _ & Hmembers)%group_classes_spec.
  apply bind_returns; [|intros [cur b] _; by eexists].
  apply (for_each_returns (fun _ => True)); [|done..].
  intros [path members] st Hin%elem_of_sorted_by _.
  apply write_group_returns; [done|].
  destruct (Hmembers path members Hin) as [-> _].
  unfold classes_under. by intros cl [_ ?]%list_elem_of_filter.
Qed.

(** The extractor stores the label of every class it records. *)
Lemma good_state_labelled W st : good_state W st → labelled (st_classes st).
Proof.
  intros [Hcls _] cl entry Hin.
  destruct (Hcls cl entry Hin) as (_ & evs & Hextract).
  by destruct (extract_class_label W cl entry evs Hextract).
Qed.

(** ** The field keys that are rendered *)

Lemma prop_keys_class_section W this_mod c :
  prop_keys (class_section_chunks W this_mod c).1 = (sec_props c).*1
  ∧ prop_keys (class_section_chunks W this_mod c).2 = (sec_props c).*1.
Proof.
  unfold class_section_chunks, prop_keys. simpl.
  split; induction (sec_props c) as [|[k h] props IH]; csimpl; by f_equal.
Qed.

Lemma elem_of_written_items_keys entry k :
  k ∈ (written_items entry).*1 ↔ k ∈ dict_keys entry ∧ k ∉ SKIP_KEYS.
Proof.
  unfold written_items, sorted_items, dict_keys.
  rewrite !list_elem_of_fmap. split.
  - intros ([k' h] & -> & [Hkeep Hin%elem_of_sorted_by]%list_elem_of_filter).
    split; [by exists (k', h)|done].
  - intros [([k' h] & -> & Hin) Hkeep]. exists (k', h). split; [done|].
    apply list_elem_of_filter. split; [done|]. by apply elem_of_sorted_by.
Qed.

(** The keys written for a class that the extractor recorded. *)
Lemma extracted_section_keys W st cl c :
  good_state W st → section_of (st_classes st) cl c →
  ∀ k, k ∈ (sec_props c).*1 ↔
       k ∈ dict_keys (cl_field_dict (class_at W cl)) ∧ (k ∉ SKIP_KEYS)
       ∧ is_Some (getattr_class W cl k).
Proof.
  intros [Hcls _] (_ & entry & Hentry%dict_get_Some_elem_of & _ & ->) k.
  destruct (Hcls cl entry Hentry) as (_ & evs & Hextract).
  rewrite elem_of_written_items_keys, (extract_class_keys W cl entry evs) by done.
  split; [|naive_solver].
  intros [[->|?] Hkeep]; [|naive_solver].
  exfalso. apply Hkeep. unfold SKIP_KEYS. by left.
Qed.

(** C1, as the code has it: the renderer returns on the extracted model,
    and for every class recorded in the model, both documents list the same
    field keys for it; every listed key is a key of
    the serialized default instance other than ["OTIO_SCHEMA"] and
    ["children"]; every such key that the class-level lookup finds is
    listed; and a key found under none of the three accessor shapes is not
    listed. *)
Theorem rendered_field_keys (W : world) (st : gen_state) :
  _generate_model W = Done st →
  ∃ (b : buffers) (groups : list group_section),
    write_chunks W (st_classes st) = Done b
    ∧ field_keys_listed W st b groups.
Proof.
  intros Hgood%generate_model_good.
  destruct (write_chunks_returns W (st_classes st)) as [b Hb];
    [by eapply good_state_labelled|].
  pose proof Hb as (groups & Hgroups & ->)%write_chunks_spec.
  eexists _, groups. split; [done|].
  unfold field_keys_listed. split_and!; [done| |].
  - intros cl. by apply (groups_written_cover W).
  - intros g c Hg Hc. cbv zeta.
    destruct (groups_written_classes W _ groups g Hgroups Hg) as (_ & _ & Hsecs).
    rewrite Forall_forall in Hsecs. specialize (Hsecs c Hc).
    pose proof (extracted_section_keys W st (sec_class c) c Hgood Hsecs) as Hkeys.
    destruct (prop_keys_class_section W (first_two_segments (grp_path g)) c)
      as [-> ->].
    split_and!; [done|..].
    + intros k Hk%Hkeys. tauto.
    + intros k ???. apply Hkeys. done.
    + intros k Hnone _ _ Hk%Hkeys. rewrite Hnone in Hk.
      by destruct Hk as (_ & _ & [? [=]]).
Qed.

(** ** What rendering reads *)

Lemma for_each_ext {A S} (f g : A → S → outcome S) l s :
  (∀ x s, x ∈ l → f x s = g x s) → for_each f l s = for_each g l s.
Proof.
  revert s. induction l as [|x l IH]; intros s Hfg; simpl; [done|].
  rewrite Hfg by (by left). destruct (g x s) as [s1| |]; simpl; [|done..].
  apply IH. intros y t Hy. apply Hfg. by right.
Qed.

Lemma write_class_ext W1 W2 model this_mod cl b :
  same_to_renderer W1 W2 model → cl ∈ dict_keys model →
  write_class W1 model this_mod cl b = write_class W2 model this_mod cl b.
Proof.
  intros Hsame Hcl. destruct (Hsame cl Hcl) as (Hname & Hdoc & Hstr & _).
  unfold write_class. by rewrite Hname, Hdoc, Hstr.
Qed.

Lemma write_group_ext W1 W2 model path members st :
  same_to_renderer W1 W2 model →
  (∀ cl, cl ∈ members → cl ∈ dict_keys model) →
  write_group W1 model (path, members) st
  = write_group W2 model (path, members) st.
Proof.
  intros Hsame Hmembers. unfold write_group. destruct st as [cur b].
  assert (sorted_by (fun cl => cl_str (class_at W1 cl)) members
          = sorted_by (fun cl => cl_str (class_at W2 cl)) members) as ->.
  { apply sorted_by_ext. intros cl Hcl. by apply Hsame, Hmembers. }
  case_bool_decide.
  all: erewrite for_each_ext; [done|].
  all: intros cl b' Hcl%elem_of_sorted_by.
  all: by apply write_class_ext, Hmembers.
Qed.

(** C10, as the code has it: the two documents are a function of the model
    and of what the renderer reads of each class of the model: its name, its
    documentation string, its display string and its effective namespace
    (which the remapping computes from the namespace graph).  The model is
    an argument that is only read. *)
Theorem rendering_reads_only (W1 W2 : world) (model : model_t) :
  same_to_renderer W1 W2 model →
  _write_documentation W1 model = _write_documentation W2 model.
Proof.
  intros Hsame. unfold _write_documentation, write_chunks.
  assert (group_classes W1 model = group_classes W2 model) as Hgroups.
  { unfold group_classes. apply for_each_ext. intros cl modules Hcl.
    by destruct (Hsame cl Hcl) as (_ & _ & _ & ->). }
  rewrite <- Hgroups.
  destruct (group_classes W1 model) as [modules| |] eqn:Hmodules; [|done..].
  simpl. erewrite for_each_ext; [done|].
  intros [path members] st Hin%elem_of_sorted_by.
  apply write_group_ext; [done|].
  apply group_classes_spec in Hmodules as (_ & _ & Hmembers).
  destruct (Hmembers path members Hin) as [-> _].
  unfold classes_under. by intros cl [_ ?]%list_elem_of_filter.
Qed.

(** ** Deduplication against the running model *)

(** A class that is already recorded and is not one of the three value types
    is not collected again. *)
Lemma recorded_class_not_collected W classes m cl :
  cl ∈ dict_keys classes →
  cl ∉ [RationalTime W; TimeRange W; TimeTransform W] →
  cl ∉ serializable_classes W classes m.
Proof.
  intros Hrecorded Hvalue. unfold serializable_classes.
  rewrite list_elem_of_omap.
  intros (t & [Hfilter _]%list_elem_of_filter & Ht).
  destruct t as [|c|]; simplify_eq/=.
  apply orb_prop in Hfilter as [Hnew|Hallowed].
  - apply andb_prop in Hnew as [Hnew _]. apply negb_true_iff in Hnew.
    unfold dict_mem in Hnew. by apply bool_decide_eq_false in Hnew.
  - by apply bool_decide_eq_true in Hallowed.
Qed.

(** A value type is collected wherever it is a member, recorded or not. *)
Lemma value_type_always_collected W classes m cl :
  cl ∈ [RationalTime W; TimeRange W; TimeTransform W] →
  holds W m cl →
  cl ∈ serializable_classes W classes m.
Proof.
  intros Hvalue Hholds. unfold serializable_classes.
  rewrite list_elem_of_omap. exists (Cls cl). split; [|done].
  apply list_elem_of_filter. split; [|done]. simpl.
  rewrite (bool_decide_eq_true_2 _ Hvalue). apply orb_true_r.
Qed.

(** ** Checking reachability in a concrete world *)

Lemma elem_of_holders W cl m : holds W m cl → m ∈ holders W cl.
Proof.
  intros Hholds. apply list_elem_of_filter. split; [done|].
  apply elem_of_seq. split; [lia|]. simpl.
  destruct (decide (m < length (heap_modules W))) as [?|Hout]; [done|].
  unfold holds, module_at in Hholds.
  rewrite lookup_ge_None_2 in Hholds by lia.
  by apply elem_of_nil in Hholds.
Qed.

Lemma reachable_within W avoid l a b :
  closed_under W avoid l = true → a ∈ l → reachable W avoid a b → b ∈ l.
Proof.
  intros Hclosed Ha Hreach.
  induction Hreach as [|x y z [Hxy Hy] _ IH]; [done|].
  apply IH. unfold closed_under in Hclosed.
  rewrite forallb_forall in Hclosed.
  specialize (Hclosed x (proj1 (list_elem_of_In _ _) Ha)).
  rewrite forallb_forall in Hclosed.
  apply elem_of_child_modules, list_elem_of_In, Hclosed in Hxy.
  apply bool_decide_eq_true in Hxy as [?|?]; done.
Qed.

(** Case analysis on a membership in a concrete list. *)
Ltac cases_of H :=
  repeat (apply elem_of_cons in H as [->|H]);
  try (by apply elem_of_nil in H).

(** ** The claims on the example worlds *)

(** C1 fails as the specification words it: in [ghost_world] the model
    holds [Baz] alone, whose serialized keys are ["OTIO_SCHEMA"], ["ghost"]
    and ["enabled"]; both documents list ["enabled"] only. *)
Lemma ghost_key_not_rendered :
  ∃ st b,
    _generate_model ghost_world = Done st
    ∧ write_chunks ghost_world (st_classes st) = Done b
    ∧ dict_keys (st_classes st) = [8]
    ∧ dict_keys (cl_field_dict (class_at ghost_world 8))
      = ["OTIO_SCHEMA"; "ghost"; "enabled"]
    ∧ prop_keys b.1 = ["enabled"]
    ∧ prop_keys b.2 = ["enabled"]
    ∧ ¬ listed_as_specified ghost_world 8 ["enabled"].
Proof.
  eexists _, _. split_and!; try (vm_compute; reflexivity).
  intros Hclaim.
  assert ("ghost" ∉ ["enabled"]) as Hnot by compute_done.
  apply Hnot, Hclaim. split; [|unfold SKIP_KEYS]; compute_done.
Qed.

(** C2 fails on the code: in [private_world] the field ["name"] of [Bar]
    has no class attribute [name] but a documented private property
    [_name], and the instance has the attribute.  The second and the third
    fetcher would succeed, yet the loop ends without a value: nothing is
    stored for ["name"] and the diagnostic is written. *)
Lemma private_accessor_never_consulted :
  getattr_class private_world 7 "name" = None
  ∧ fetch_private_property private_world 7 "name"
    = ([], Some (PyStr "The name of the object."))
  ∧ fetch_instance_attribute private_world 7 "name"
    = ([EvInstantiate 7], Some (PyStr ""))
  ∧ try_fetchers private_world 7 "name" PROP_FETCHERS = ([], None)
  ∧ ∃ st,
      _generate_model private_world = Done st
      ∧ st_classes st = [(7, [("OTIO_SCHEMA", PyStr "Bar.1")])]
      ∧ st_trace st
        = [EvVisit 0; EvVisit 1; EvInstantiate 7; EvSerialize 7;
           EvStderr "ERROR: could not fetch property: name";
           EvStderr "ERROR: could not fetch property: color"].
Proof.
  split_and!; try (vm_compute; reflexivity).
  eexists. split_and!; vm_compute; reflexivity.
Qed.

(** C3 fails on the code: in [revisit_world] the root holds [adapters] and
    [core], and [adapters] holds [core].  The root's list of new modules is
    built before it recurses, so [core] (3) is entered from [adapters] and
    again from the root. *)
Lemma namespace_visited_twice :
  new_mods revisit_world {[0]} 0 = [6; 3]
  ∧ ∃ st,
      _generate_model revisit_world = Done st
      ∧ st_trace st = [EvVisit 0; EvVisit 6; EvVisit 3; EvVisit 3]
      ∧ count_occ event_eq_dec (st_trace st) (EvVisit 3) = 2.
Proof.
  split; [vm_compute; reflexivity|].
  eexists. split_and!; vm_compute; reflexivity.
Qed.

(** C4 fails on the code: in [reexport_world] the root holds
    [RationalTime] and [opentime], which holds [RationalTime] too.  After
    the root's own classes are extracted the model records [RationalTime]
    (3), and the visit of [opentime] (2) collects, instantiates and
    serializes it again. *)
Lemma value_type_extracted_again :
  ∃ st1 st,
    visit_module reexport_world 0 initial_state = Done st1
    ∧ dict_keys (st_classes st1) = [3]
    ∧ serializable_classes reexport_world (st_classes st1) 2 = [3]
    ∧ _generate_model reexport_world = Done st
    ∧ st_trace st
      = [EvVisit 0; EvInstantiate 3; EvSerialize 3;
         EvVisit 2; EvInstantiate 3; EvSerialize 3].
Proof. eexists _, _. split_and!; vm_compute; reflexivity. Qed.

(** C8 fails as the specification words it: in [nested_world] the class
    [Bar] (7) is declared in an opaque namespace and is contained in
    [schema] alone of the three canonical namespaces, through [adapters];
    it is documented under [adapters], the namespace that holds it, and not
    under [schema]. *)
Lemma remapped_to_the_holder :
  cl_module (class_at nested_world 7) ∈ OPAQUE_MODULE_NAMES
  ∧ contained nested_world (otio_schema nested_world) 7
  ∧ ¬ contained nested_world (otio_opentime nested_world) 7
  ∧ ¬ contained nested_world (otio_core nested_world) 7
  ∧ effective_namespace nested_world 7 = Done "opentimelineio.adapters"
  ∧ mod_name (module_at nested_world (otio_schema nested_world))
    = "opentimelineio.schema"
  ∧ effective_namespace nested_world 7
    ≠ Done (mod_name (module_at nested_world (otio_schema nested_world))).
Proof.
  split_and!; try (vm_compute; reflexivity); try compute_done.
  - exists 6. split; [|compute_done].
    apply (rtc_l _ _ 6); [|apply rtc_refl].
    split; [unfold member; compute_done|set_solver].
  - intros (x & Hreach & Hholds).
    apply (reachable_within _ _ [2]) in Hreach; [|reflexivity|compute_done].
    cases_of Hreach. revert Hholds. compute_done.
  - intros (x & Hreach & Hholds).
    apply (reachable_within _ _ [3]) in Hreach; [|reflexivity|compute_done].
    cases_of Hreach. revert Hholds. compute_done.
Qed.

(** C10 fails as the specification words it: [nested_world] and
    [exported_world] have the same classes, with the same attributes, and
    the extractor returns the same model in both; the documents differ,
    because [schema] exports [Bar] in the second. *)
Lemma rendering_reads_the_namespace_graph :
  ∃ st1 st2,
    _generate_model nested_world = Done st1
    ∧ _generate_model exported_world = Done st2
    ∧ st_classes st1 = st_classes st2
    ∧ (∀ cl, class_at nested_world cl = class_at exported_world cl)
    ∧ _write_documentation nested_world (st_classes st1)
      ≠ _write_documentation exported_world (st_classes st2).
Proof.
  eexists _, _. split_and!; try (vm_compute; reflexivity).
  vm_compute. intros [= Hdiff].
Qed.

(** ** The theorems at concrete inputs *)

Lemma stored_doc_is_class_level_witness :
  ∃ evs v,
    fetch_instance_attribute private_world 7 "name" = (evs, Some v)
    ∧ v = PyStr "".
Proof.
  eexists _, _. split; [vm_compute; reflexivity|].
  destruct (stored_doc_is_class_level private_world 7 "name" [] [])
    as (_ & _ & Hthird).
  apply (Hthird [EvInstantiate 7]). vm_compute. reflexivity.
Defined.

Lemma skipped_classes_never_extracted_witness :
  ∃ st,
    _generate_model otio_world = Done st
    ∧ 2 ∈ SKIP_CLASSES otio_world
    ∧ holds otio_world (otio_core otio_world) 2
    ∧ (2 ∉ dict_keys (st_classes st))
    ∧ (EvInstantiate 2 ∉ st_trace st)
    ∧ (EvSerialize 2 ∉ st_trace st).
Proof.
  eexists. split; [vm_compute; reflexivity|].
  split; [unfold SKIP_CLASSES; compute_done|]. split; [compute_done|].
  apply (skipped_classes_never_extracted otio_world);
    [vm_compute; reflexivity | unfold SKIP_CLASSES; compute_done].
Defined.

Lemma generate_model_terminates_witness :
  member otio_world 3 0
  ∧ terminated (_generate_model_for_module otio_world 100
                  (otio otio_world) initial_state)
  ∧ _generate_model_for_module otio_world 100 (otio otio_world) initial_state
    = _generate_model otio_world.
Proof.
  split; [unfold member; compute_done|].
  apply (generate_model_terminates otio_world 100).
  unfold enough_fuel. simpl. lia.
Defined.

Lemma namespace_remapping_witness :
  effective_namespace otio_world 10 = Done "opentimelineio.schema.plain"
  ∧ effective_namespace otio_world 6 = Done "opentimelineio.schema"
  ∧ effective_namespace nested_world 7 = Done "opentimelineio.adapters"
  ∧ effective_namespace otio_world 7 = Done "opentimelineio.adapters"
  ∧ effective_namespace otio_world 9 = Done "opentimelineio._otio".
Proof.
  split_and!.
  - destruct (namespace_remapping otio_world 10) as [Hexact _].
    apply Hexact. apply (documented_where_declared otio_world 10).
    unfold OPAQUE_MODULE_NAMES. compute_done.
  - destruct (namespace_remapping otio_world 6) as [Hexact _].
    apply Hexact. apply (documented_under_holder otio_world 6 1).
    + unfold OPAQUE_MODULE_NAMES. compute_done.
    + vm_compute. reflexivity.
  - destruct (namespace_remapping nested_world 7) as [Hexact _].
    apply Hexact. apply (documented_under_holder nested_world 7 6).
    + unfold OPAQUE_MODULE_NAMES. compute_done.
    + vm_compute. reflexivity.
  - destruct (namespace_remapping otio_world 7) as [Hexact _].
    apply Hexact. apply (documented_under_holder otio_world 7 6).
    + unfold OPAQUE_MODULE_NAMES. compute_done.
    + vm_compute. reflexivity.
  - destruct (namespace_remapping otio_world 9) as [Hexact _].
    apply Hexact. apply (documented_fallback otio_world 9).
    + unfold OPAQUE_MODULE_NAMES. compute_done.
    + vm_compute. reflexivity.
Defined.

Lemma documents_are_ordered_witness :
  ∃ full short,
    _write_documentation otio_world otio_model = Done (full, short)
    ∧ ∃ groups, documents_in_order otio_world otio_model full short groups.
Proof.
  eexists _, _. split; [vm_compute; reflexivity|].
  apply (documents_are_ordered otio_world otio_model).
  vm_compute. reflexivity.
Defined.

Lemma rendered_field_keys_witness :
  ∃ st,
    _generate_model otio_world = Done st
    ∧ ∃ b groups,
        write_chunks otio_world (st_classes st) = Done b
        ∧ field_keys_listed otio_world st b groups.
Proof.
  eexists. split; [vm_compute; reflexivity|].
  apply (rendered_field_keys otio_world). vm_compute. reflexivity.
Defined.

Lemma rendering_reads_only_witness :
  holds exported_world 1 7
  ∧ ¬ holds nested_world 1 7
  ∧ _write_documentation nested_world [(10, [("OTIO_SCHEMA", PyStr "Plain.1")])]
    = _write_documentation exported_world
        [(10, [("OTIO_SCHEMA", PyStr "Plain.1")])].
Proof.
  split; [compute_done|]. split; [compute_done|].
  apply (rendering_reads_only nested_world exported_world).
  intros cl Hcl. unfold dict_keys in Hcl. simpl in Hcl. cases_of Hcl.
  split_and!; vm_compute; reflexivity.
Defined.

(** * Further properties of the code *)

(** ** What the traversal reaches *)

Lemma elem_of_new_mods_iff W modules m c :
  c ∈ new_mods W modules m ↔ (c ∉ modules) ∧ enters W m c.
Proof.
  unfold new_mods, enters, member, enterable.
  rewrite elem_of_sorted_by, list_elem_of_omap. split.
  - intros (t & [Hnew Hin]%list_elem_of_filter & Ht).
    destruct t as [c'| |]; simplify_eq/=.
    apply andb_prop in Hnew as [Hnew Hname].
    by apply bool_decide_eq_true in Hnew.
  - intros (Hc & Hin & Hname). exists (Mod c). split; [|done].
    apply list_elem_of_filter. split; [|done]. unfold is_new_module.
    by rewrite bool_decide_eq_true_2, Hname.
Qed.

(** An invariant of the visits of walkable namespaces is an invariant of
    the traversal from a walkable namespace. *)
Lemma generate_invariant_walkable (W : world) (P : gen_state → Prop) :
  (∀ m st st', walkable W (otio W) m → P st →
               visit_module W m st = Done st' → P st') →
  ∀ fuel m st st',
    walkable W (otio W) m → P st →
    _generate_model_for_module W fuel m st = Done st' → P st'.
Proof.
  intros Hvisit. induction fuel as [|fuel IH]; intros m st st' Hm Hst; [done|].
  cbn [_generate_model_for_module].
  intros (st1 & Hst1 & Hloop)%bind_Done.
  eapply (for_each_invariant P); [| |exact Hloop].
  - intros c s s' [_ Hc]%elem_of_new_mods_iff. apply IH.
    eapply rtc_r; [exact Hm|exact Hc].
  - by eapply Hvisit.
Qed.

Lemma for_each_closed W fuel l :
  (∀ c s s', _generate_model_for_module W fuel c s = Done s' →
             visited_closed W (st_modules s) c (st_modules s')) →
  ∀ s s',
    for_each (_generate_model_for_module W fuel) l s = Done s' →
    st_modules s ⊆ st_modules s'
    ∧ (∀ c, c ∈ l → c ∈ st_modules s')
    ∧ ∀ x, x ∈ st_modules s' → x ∉ st_modules s →
           ∀ c, enters W x c → c ∈ st_modules s'.
Proof.
  intros Hcall. induction l as [|c l IH]; intros s s'; simpl.
  - intros [= <-]. split_and!; [done|by intros ? ?%elem_of_nil|done].
  - intros (s1 & [Hsub1 Hclosed1]%Hcall & (Hsub & Hin & Hclosed)%IH)%bind_Done.
    split_and!.
    + set_solver.
    + intros c' [->|?]%elem_of_cons; [set_solver|by apply Hin].
    + intros x Hx Hnew c' Hc'.
      destruct (decide (x ∈ st_modules s1)) as [Hx1|Hx1];
        [|by eapply Hclosed].
      apply Hsub. eapply Hclosed1; [exact Hx1| |exact Hc'].
      destruct (decide (x = c)); [by right|by left].
Qed.

Lemma generate_closed W fuel m st st' :
  _generate_model_for_module W fuel m st = Done st' →
  visited_closed W (st_modules st) m (st_modules st').
Proof.
  revert m st st'. induction fuel as [|fuel IH]; intros m st st'; [done|].
  cbn [_generate_model_for_module].
  intros (st1 & Hst1%visit_module_modules & Hloop)%bind_Done.
  apply (for_each_closed W fuel _ IH) in Hloop as (Hsub & Hin & Hclosed).
  rewrite Hst1 in *. split; [done|].
  intros x Hx Hor c Hc.
  destruct (decide (x = m)) as [->|Hne].
  - destruct (decide (c ∈ {[m]} ∪ st_modules st)) as [?|Hnew];
      [by apply Hsub|].
    apply Hin. by apply elem_of_new_mods_iff.
  - eapply Hclosed; [exact Hx| |exact Hc]. set_solver.
Qed.

Lemma visited_walkable W st m :
  _generate_model W = Done st → m ∈ st_modules st → walkable W (otio W) m.
Proof.
  intros Hgen. revert m.
  apply (generate_invariant_walkable W
           (fun s => ∀ m, m ∈ st_modules s → walkable W (otio W) m))
    with (fuel := enough_fuel W) (m := otio W) (st := initial_state);
    [|apply rtc_refl|by intros ? ?%elem_of_empty|exact Hgen].
  intros m st0 st1 Hm Hst0 ->%visit_module_modules x.
  intros [->%elem_of_singleton|?]%elem_of_union; [done|by apply Hst0].
Qed.

Lemma walkable_visited W st m :
  _generate_model W = Done st → walkable W (otio W) m → m ∈ st_modules st.
Proof.
  intros [Hroot Hclosed]%generate_closed.
  assert (∀ x c, x ∈ st_modules st → enters W x c → c ∈ st_modules st)
    as Hstep.
  { intros x c Hx. apply Hclosed; [done|]. left. apply not_elem_of_empty. }
  assert (otio W ∈ st_modules st) as Hin by set_solver.
  clear Hroot Hclosed. intros Hwalk. revert Hin.
  induction Hwalk as [|a b c Hab _ IH]; [done|].
  intros Ha. apply IH. by eapply Hstep.
Qed.

Lemma visit_loop_extracted_from W m st model trace :
  for_each (extract_into W) (serializable_classes W (st_classes st) m)
           ([], st_trace st ++ [EvVisit m]) = Done (model, trace) →
  extracted_from W (st_trace st ++ [EvVisit m]) (model, trace).
Proof.
  intros Hloop.
  eapply (for_each_invariant (extracted_from W _)); [| |exact Hloop].
  - intros cl acc acc' _. apply extract_into_extracted_from.
  - split; simpl; [by intros ?? ?%elem_of_nil | by left].
Qed.

Lemma visit_events_walkable W st m :
  _generate_model W = Done st → EvVisit m ∈ st_trace st →
  walkable W (otio W) m.
Proof.
  intros Hgen. revert m.
  apply (generate_invariant_walkable W
           (fun s => ∀ m, EvVisit m ∈ st_trace s → walkable W (otio W) m))
    with (fuel := enough_fuel W) (m := otio W) (st := initial_state);
    [|apply rtc_refl|by intros ? ?%elem_of_nil|exact Hgen].
  intros m st0 st1 Hm Hst0 (model & trace & Hloop & ->)%visit_module_Done x.
  simpl. intros Hx.
  apply visit_loop_extracted_from in Hloop as [_ Htrace].
  destruct (Htrace _ Hx) as [Hin|[(cl & _ & [?|?])|[text ?]]]; try done.
  apply elem_of_app in Hin as [?|Hin]; [by apply Hst0|].
  apply list_elem_of_singleton in Hin. by simplify_eq.
Qed.

(** X1: The namespaces the traversal visits are those it can walk to from the
    root, through members whose names are not skipped: none is missed and
    no other is entered. *)
Theorem visited_namespaces (W : world) (st : gen_state) (m : mod_id) :
  _generate_model W = Done st →
  (m ∈ st_modules st ↔ walkable W (otio W) m)
  ∧ (EvVisit m ∈ st_trace st ↔ walkable W (otio W) m).
Proof.
  intros Hgen. split; split.
  - by apply visited_walkable.
  - by apply walkable_visited.
  - by apply visit_events_walkable.
  - intros Hwalk%(walkable_visited W st m Hgen). revert m Hwalk.
    apply (generate_invariant W
             (fun s => ∀ m, m ∈ st_modules s → EvVisit m ∈ st_trace s))
      with (fuel := enough_fuel W) (m := otio W) (st := initial_state);
      [|by intros ? ?%elem_of_empty|exact Hgen].
    intros m st0 st1 Hst0 (model & trace & Hloop & ->)%visit_module_Done x.
    simpl. intros Hx.
    assert (∀ e, e ∈ st_trace st0 ++ [EvVisit m] → e ∈ trace) as Hgrow.
    { revert Hloop. generalize (st_trace st0 ++ [EvVisit m]).
      generalize (@nil (class_id * list (string * pyval))).
      induction (serializable_classes W (st_classes st0) m) as [|cl l IH];
        intros model0 trace0; simpl.
      - by intros [= _ <-].
      - intros ([model1 trace1] & Hcl & Hrest)%bind_Done e He.
        eapply IH; [exact Hrest|]. unfold extract_into in Hcl.
        case_bool_decide; [by simplify_eq|].
        apply bind_Done in Hcl as ([entry evs] & _ & [= _ <-]).
        apply elem_of_app. by left. }
    apply Hgrow, elem_of_app.
    apply elem_of_union in Hx as [->%elem_of_singleton|?];
      [right; by left | left; by apply Hst0].
Qed.

Lemma visited_namespaces_witness :
  ∃ st,
    _generate_model otio_world = Done st
    ∧ (6 ∈ st_modules st ↔ walkable otio_world (otio otio_world) 6)
    ∧ (EvVisit 6 ∈ st_trace st ↔ walkable otio_world (otio otio_world) 6).
Proof.
  eexists. split; [vm_compute; reflexivity|].
  apply (visited_namespaces otio_world). vm_compute. reflexivity.
Defined.

(** ** What the model records *)

Lemma elem_of_serializable_classes W classes m cl :
  cl ∈ serializable_classes W classes m ↔
  holds W m cl
  ∧ (((cl ∉ dict_keys classes) ∧ cl_serializable (class_at W cl) = true)
     ∨ cl ∈ [RationalTime W; TimeRange W; TimeTransform W]).
Proof.
  unfold serializable_classes, holds. rewrite list_elem_of_omap. split.
  - intros (t & [Hfilter Hin]%list_elem_of_filter & Ht).
    destruct t as [|c|]; simplify_eq/=. split; [done|].
    apply orb_prop in Hfilter as [Hnew|Hvalue].
    + left. apply andb_prop in Hnew as [Hnew ?]. split; [|done].
      apply negb_true_iff in Hnew. unfold dict_mem in Hnew.
      by apply bool_decide_eq_false in Hnew.
    + right. by apply bool_decide_eq_true in Hvalue.
  - intros [Hin Hor]. exists (Cls cl). split; [|done].
    apply list_elem_of_filter. split; [|done]. simpl.
    destruct Hor as [[Hnew ->]|Hvalue].
    + unfold dict_mem. by rewrite (bool_decide_eq_false_2 _ Hnew).
    + rewrite (bool_decide_eq_true_2 _ Hvalue). apply orb_true_r.
Qed.

Lemma extract_loop_keys W l acc acc' :
  for_each (extract_into W) l acc = Done acc' →
  ∀ cl, cl ∈ dict_keys acc'.1 ↔
        cl ∈ dict_keys acc.1 ∨ (cl ∈ l ∧ cl ∉ SKIP_CLASSES W).
Proof.
  revert acc. induction l as [|c l IH]; intros [model trace]; simpl.
  - intros [= <-] cl. rewrite elem_of_nil. tauto.
  - intros (acc1 & Hc & Hrest)%bind_Done cl.
    rewrite (IH _ Hrest), elem_of_cons. unfold extract_into in Hc.
    case_bool_decide as Hskip.
    + injection Hc as <-. cbn [fst]. naive_solver.
    + apply bind_Done in Hc as ([entry evs] & _ & [= <-]). cbn [fst].
      rewrite dict_keys_set. naive_solver.
Qed.

Lemma visit_module_keys W m st st' :
  visit_module W m st = Done st' →
  ∀ cl, cl ∈ dict_keys (st_classes st') ↔
        cl ∈ dict_keys (st_classes st)
        ∨ (cl ∈ serializable_classes W (st_classes st) m
           ∧ cl ∉ SKIP_CLASSES W).
Proof.
  intros (model & trace & Hloop & ->)%visit_module_Done cl. simpl.
  rewrite dict_keys_update, (extract_loop_keys _ _ _ _ Hloop cl). simpl.
  unfold dict_keys at 2. simpl. rewrite elem_of_nil. tauto.
Qed.

(** The state invariant behind the keys of the model. *)
Lemma generate_model_keys_invariant W st :
  _generate_model W = Done st →
  (∀ cl, cl ∈ dict_keys (st_classes st) →
         ∃ m, walkable W (otio W) m ∧ holds W m cl ∧ candidate W cl)
  ∧ (∀ m cl, m ∈ st_modules st → holds W m cl → candidate W cl →
             cl ∈ dict_keys (st_classes st)).
Proof.
  apply (generate_invariant_walkable W
           (fun s =>
              (∀ cl, cl ∈ dict_keys (st_classes s) →
                     ∃ m, walkable W (otio W) m ∧ holds W m cl
                          ∧ candidate W cl)
              ∧ (∀ m cl, m ∈ st_modules s → holds W m cl → candidate W cl →
                         cl ∈ dict_keys (st_classes s))));
    [|apply rtc_refl|].
  - intros m st0 st1 Hm [Hsound Hcomplete] Hvisit.
    pose proof (visit_module_keys W m st0 st1 Hvisit) as Hkeys.
    apply visit_module_modules in Hvisit as Hmods. split.
    + intros cl [?|[Hcl Hskip]]%Hkeys; [by apply Hsound|].
      apply elem_of_serializable_classes in Hcl as [Hholds Hor].
      exists m. split_and!; [done..|]. split; [|done].
      destruct Hor as [[_ ?]|?]; [by left|by right].
    + intros m' cl Hm' Hholds [Hor Hskip]. apply Hkeys.
      rewrite Hmods in Hm'.
      apply elem_of_union in Hm' as [->%elem_of_singleton|Hm'];
        [|left; by apply (Hcomplete m')].
      destruct (decide (cl ∈ dict_keys (st_classes st0))); [by left|].
      right. split; [|done]. apply elem_of_serializable_classes.
      split; [done|]. destruct Hor; [left|right]; done.
  - split; [by intros ? ?%elem_of_nil|by intros ?? ?%elem_of_empty].
Qed.

(** X2: The classes the model records are the classes that pass the filter, are
    off the skip list and are members of a namespace the traversal walks
    to: none is missed, whatever the order of the visits. *)
Theorem recorded_classes (W : world) (st : gen_state) (cl : class_id) :
  _generate_model W = Done st →
  (cl ∈ dict_keys (st_classes st) ↔
   ∃ m, walkable W (otio W) m ∧ holds W m cl ∧ candidate W cl).
Proof.
  intros Hgen.
  destruct (generate_model_keys_invariant W st Hgen) as [Hsound Hcomplete].
  split; [by apply Hsound|].
  intros (m & Hm & Hholds & Hcand).
  apply (Hcomplete m); [|done..]. by apply (walkable_visited W).
Qed.

Lemma recorded_classes_witness :
  ∃ st,
    _generate_model otio_world = Done st
    ∧ (6 ∈ dict_keys (st_classes st) ↔
       ∃ m, walkable otio_world (otio otio_world) m ∧ holds otio_world m 6
            ∧ candidate otio_world 6).
Proof.
  eexists. split; [vm_compute; reflexivity|].
  apply (recorded_classes otio_world). vm_compute. reflexivity.
Defined.

(** ** What is recorded for a class *)

Lemma extract_keys_values W cl keys entry trace entry' trace' :
  fold_left (extract_key W cl) keys (entry, trace) = (entry', trace') →
  ∀ k, dict_get k entry'
       = if decide (k ∈ keys ∧ k ∉ SKIP_KEYS)
         then match class_level_doc W cl k with
              | Some v => Some v
              | None => dict_get k entry
              end
         else dict_get k entry.
Proof.
  revert entry trace.
  induction keys as [|k0 keys IH]; intros entry trace; cbn [fold_left].
  - intros [= <- <-] k. rewrite decide_False; [done|].
    by intros [?%elem_of_nil _].
  - rewrite extract_key_class_level. intros Hfold k.
    case_bool_decide as Hskip.
    + rewrite (IH _ _ Hfold k).
      destruct (decide (k ∈ keys ∧ k ∉ SKIP_KEYS)) as [[? ?]|Hno].
      * rewrite decide_True; [done|]. split; [by right|done].
      * rewrite decide_False; [done|].
        intros [[->|?]%elem_of_cons ?]; [done|]. by apply Hno.
    + destruct (class_level_doc W cl k0) as [v0|] eqn:Hdoc.
      * rewrite (IH _ _ Hfold k), dict_get_set.
        destruct (decide (k0 = k)) as [->|Hne].
        -- rewrite Hdoc. rewrite (decide_True (P := k ∈ k :: keys ∧ _));
             [|split; [by left|done]].
           by destruct (decide (k ∈ keys ∧ k ∉ SKIP_KEYS)).
        -- destruct (decide (k ∈ keys ∧ k ∉ SKIP_KEYS)) as [[? ?]|Hno].
           ++ rewrite decide_True; [done|]. split; [by right|done].
           ++ rewrite decide_False; [done|].
              intros [[->|?]%elem_of_cons ?]; [done|]. by apply Hno.
      * rewrite (IH _ _ Hfold k).
        destruct (decide (k ∈ keys ∧ k ∉ SKIP_KEYS)) as [[? ?]|Hno].
        -- rewrite decide_True; [done|]. split; [by right|done].
        -- destruct (decide (k = k0)) as [->|Hne].
           ++ rewrite decide_True by (split; [by left|done]).
              by rewrite Hdoc.
           ++ rewrite decide_False; [done|].
              intros [[->|?]%elem_of_cons ?]; [done|]. by apply Hno.
Qed.

Lemma extract_keys_NoDup W cl keys entry trace entry' trace' :
  fold_left (extract_key W cl) keys (entry, trace) = (entry', trace') →
  NoDup (dict_keys entry) → NoDup (dict_keys entry').
Proof.
  revert entry trace.
  induction keys as [|k0 keys IH]; intros entry trace; cbn [fold_left].
  - by intros [= <- <-].
  - rewrite extract_key_class_level. intros Hfold Hentry.
    case_bool_decide; [by eapply IH|].
    destruct (class_level_doc W cl k0); eapply IH; try exact Hfold; [|done].
    by apply dict_set_NoDup.
Qed.

(** What [extract_class] returns, key by key. *)
Lemma extract_class_values W cl entry evs :
  extract_class W cl = Done (entry, evs) →
  NoDup (dict_keys entry)
  ∧ ∀ k, dict_get k entry
         = if decide (k = "OTIO_SCHEMA")
           then dict_get "OTIO_SCHEMA" (cl_field_dict (class_at W cl))
           else if decide (k ∈ dict_keys (cl_field_dict (class_at W cl))
                           ∧ k ∉ SKIP_KEYS)
                then class_level_doc W cl k
                else None.
Proof.
  unfold extract_class. destruct (cl_serialize_raises _); [done|].
  destruct (fold_left _ _ _) as [entry0 trace0] eqn:Hfold.
  destruct (dict_get "OTIO_SCHEMA" _) as [label|] eqn:Hlabel; [|done].
  intros [= <- <-]. split.
  - apply dict_set_NoDup. eapply extract_keys_NoDup; [exact Hfold|].
    apply NoDup_nil_2.
  - intros k. rewrite dict_get_set.
    destruct (decide ("OTIO_SCHEMA" = k)) as [<-|Hne].
    + by rewrite decide_True.
    + rewrite decide_False by done.
      rewrite (extract_keys_values _ _ _ _ _ _ _ Hfold k).
      destruct (decide _); [|done]. by destruct (class_level_doc W cl k).
Qed.

Lemma dict_update_NoDup {K V} `{EqDecision K} (d other : list (K * V)) :
  NoDup (dict_keys d) → NoDup (dict_keys (dict_update d other)).
Proof.
  unfold dict_update. revert d.
  induction other as [|[k v] other IH]; intros d Hd; simpl; [done|].
  by apply IH, dict_set_NoDup.
Qed.

(** X3: The model is a dictionary, and what it holds for a class is decided by
    the class alone: the label is the serialized ["OTIO_SCHEMA"], and every
    other key is a serialized key off [SKIP_KEYS] that the class-level
    lookup finds, with the documentation that lookup gives.  Nothing is
    ever recorded under ["children"]. *)
Theorem recorded_entries (W : world) (st : gen_state) (cl : class_id)
    (entry : list (string * pyval)) :
  _generate_model W = Done st →
  (cl, entry) ∈ st_classes st →
  NoDup (dict_keys (st_classes st))
  ∧ NoDup (dict_keys entry)
  ∧ is_Some (dict_get "OTIO_SCHEMA" entry)
  ∧ (dict_get "children" entry = None)
  ∧ ∀ k, dict_get k entry
         = if decide (k = "OTIO_SCHEMA")
           then dict_get "OTIO_SCHEMA" (cl_field_dict (class_at W cl))
           else if decide (k ∈ dict_keys (cl_field_dict (class_at W cl))
                           ∧ k ∉ SKIP_KEYS)
                then class_level_doc W cl k
                else None.
Proof.
  intros Hgen Hin.
  assert (NoDup (dict_keys (st_classes st))) as Hnodup.
  { revert Hgen.
    apply (generate_invariant W
             (fun s => NoDup (dict_keys (st_classes s))));
      [|apply NoDup_nil_2].
    intros m st0 st1 Hst0 (model & trace & _ & ->)%visit_module_Done.
    by apply dict_update_NoDup. }
  apply generate_model_good in Hgen as [Hcls _].
  destruct (Hcls cl entry Hin) as (_ & evs & Hextract).
  destruct (extract_class_values W cl entry evs Hextract) as [Hentry Hvalues].
  destruct (extract_class_label W cl entry evs Hextract) as [_ Hlabel].
  split_and!; [done..| |done].
  rewrite Hvalues, decide_False by done.
  rewrite decide_False; [done|]. intros [_ Hskip]. apply Hskip.
  unfold SKIP_KEYS. compute_done.
Qed.

Lemma recorded_entries_witness :
  ∃ st entry,
    _generate_model otio_world = Done st
    ∧ (6, entry) ∈ st_classes st
    ∧ NoDup (dict_keys (st_classes st))
    ∧ NoDup (dict_keys entry)
    ∧ is_Some (dict_get "OTIO_SCHEMA" entry)
    ∧ (dict_get "children" entry = None)
    ∧ ∀ k, dict_get k entry
           = if decide (k = "OTIO_SCHEMA")
             then dict_get "OTIO_SCHEMA"
                    (cl_field_dict (class_at otio_world 6))
             else if decide
                       (k ∈ dict_keys (cl_field_dict (class_at otio_world 6))
                        ∧ k ∉ SKIP_KEYS)
                  then class_level_doc otio_world 6 k
                  else None.
Proof.
  eexists _, _. split; [vm_compute; reflexivity|].
  split; [eapply dict_get_Some_elem_of; vm_compute; reflexivity|].
  apply (recorded_entries otio_world);
    [vm_compute; reflexivity
    |eapply dict_get_Some_elem_of; vm_compute; reflexivity].
Defined.

(** ** When the extraction raises *)

Lemma for_each_Raised {A S} (body : A → S → outcome S) l s e :
  for_each body l s = Raised e → ∃ x s0, x ∈ l ∧ body x s0 = Raised e.
Proof.
  revert s. induction l as [|x l IH]; intros s; simpl; [done|].
  destruct (body x s) as [s1| |] eqn:Hx; simpl; [|intros [= <-]|done].
  - intros (y & s0 & Hy & Hraise)%IH. exists y, s0. split; [by right|done].
  - exists x, s. split; [by left|done].
Qed.




Lemma generate_model_halts W : terminated (_generate_model W).
Proof.
  apply (generate_terminates_from W (length (heap_modules W)));
    [|unfold enough_fuel; lia].
  rewrite <- size_all_modules. apply subseteq_size. set_solver.
Qed.



(** ** The whole pipeline *)

Lemma rendering_returns W st :
  _generate_model W = Done st →
  ∃ b, write_chunks W (st_classes st) = Done b.
Proof.
  intros Hgen%generate_model_good.
  by apply write_chunks_returns, (good_state_labelled W).
Qed.

Lemma pipeline_halts W : terminated (generate_and_write_documentation W).
Proof.
  unfold generate_and_write_documentation.
  pose proof (generate_model_halts W) as Hterm.
  destruct (_generate_model W) as [st|e|] eqn:Hgen; simpl; [|done..].
  destruct (rendering_returns W st Hgen) as [b Hb].
  unfold _write_documentation. by rewrite Hb.
Qed.


(** X11: [generate_and_write_documentation] fails only where the extraction
    does: it never runs forever, it raises exactly what and when
    [_generate_model] raises, and on every model the extractor returns the
    renderer returns the two documents. *)
Theorem pipeline_outcome (W : world) :
  terminated (generate_and_write_documentation W)
  ∧ (∀ e, generate_and_write_documentation W = Raised e
          ↔ _generate_model W = Raised e)
  ∧ (∀ st, _generate_model W = Done st →
           ∃ b, write_chunks W (st_classes st) = Done b
                ∧ generate_and_write_documentation W
                  = Done (getvalue b.1, getvalue b.2)).
Proof.
  split; [apply pipeline_halts|].
  unfold generate_and_write_documentation.
  pose proof (generate_model_halts W) as Hterm.
  pose proof (rendering_returns W) as Hrender.
  destruct (_generate_model W) as [st|e|] eqn:Hgen; simpl.
  - destruct (Hrender st eq_refl) as [b Hb].
    unfold _write_documentation. rewrite Hb. simpl. split.
    + by split.
    + intros st' [= <-]. by exists b.
  - split; [by split; intros [= ->]|done].
  - by destruct Hterm.
Qed.

Lemma pipeline_outcome_witness :
  ∃ st,
    _generate_model otio_world = Done st
    ∧ ∃ b, write_chunks otio_world (st_classes st) = Done b
           ∧ generate_and_write_documentation otio_world
             = Done (getvalue b.1, getvalue b.2).
Proof.
  eexists. split; [vm_compute; reflexivity|].
  destruct (pipeline_outcome otio_world) as (_ & _ & Hdone).
  apply Hdone. vm_compute. reflexivity.
Defined.

(** ** The two documents side by side *)

Lemma class_section_stripped W this_mod c :
  (class_section_chunks W this_mod c).2
  = strip_docs <$> (class_section_chunks W this_mod c).1.
Proof.
  unfold class_section_chunks. cbn [fst snd]. csimpl. f_equal.
  by rewrite <- list_fmap_compose.
Qed.

Lemma group_section_stripped W g :
  (group_section_chunks W g).2 = strip_docs <$> (group_section_chunks W g).1.
Proof.
  unfold group_section_chunks. cbn [fst snd]. rewrite fmap_app. f_equal.
  - unfold heading_chunks. by destruct (grp_heading g).
  - induction (grp_classes g) as [|c cs IH]; [done|].
    by rewrite !bind_cons, fmap_app, IH, class_section_stripped.
Qed.

Lemma document_stripped W groups :
  (document_chunks W groups).2 = strip_docs <$> (document_chunks W groups).1.
Proof.
  unfold document_chunks. cbn [fst snd]. rewrite fmap_cons.
  cbn [strip_docs]. f_equal.
  induction groups as [|g gs IH]; [done|].
  by rewrite !bind_cons, fmap_app, IH, group_section_stripped.
Qed.

(** X8: The fields-only document is the full document without its
    documentation: the two buffers receive the same writes in the same
    order, each write of the second being the stripped form of the write of
    the first. *)
Theorem documents_in_step (W : world) (model : model_t) (b : buffers) :
  write_chunks W model = Done b →
  b.2 = strip_docs <$> b.1
  ∧ length b.2 = length b.1
  ∧ prop_keys b.2 = prop_keys b.1.
Proof.
  intros (groups & _ & ->)%write_chunks_spec.
  rewrite document_stripped. split_and!; [done|by rewrite length_fmap|].
  unfold prop_keys. generalize (document_chunks W groups).1. intros l.
  induction l as [|c l IH]; [done|]. csimpl. rewrite IH. by destruct c.
Qed.

Lemma documents_in_step_witness :
  ∃ b,
    write_chunks otio_world otio_model = Done b
    ∧ b.2 = strip_docs <$> b.1
    ∧ length b.2 = length b.1
    ∧ prop_keys b.2 = prop_keys b.1.
Proof.
  eexists. split; [vm_compute; reflexivity|].
  apply (documents_in_step otio_world otio_model). vm_compute. reflexivity.
Defined.

(** ** Every class once *)

Lemma setdefault_append_values {K A} `{EqDecision K}
    (k : K) (x : A) (d : list (K * list A)) :
  concat (setdefault_append k x d).*2 ≡ₚ concat d.*2 ++ [x].
Proof.
  unfold setdefault_append.
  induction d as [|[k0 l0] d IH]; simpl; [done|].
  destruct (decide (k = k0)) as [->|Hne]; simpl.
  - rewrite <- !app_assoc. f_equiv. apply Permutation_app_comm.
  - destruct (dict_get k d) as [l|] eqn:Hk; simpl in *;
      rewrite ?decide_False by done; simpl; by rewrite IH, app_assoc.
Qed.

Lemma group_loop_values W l acc modules :
  for_each (fun cl modules =>
              modobj ← effective_namespace W cl;
              Done (setdefault_append modobj cl modules)) l acc
  = Done modules →
  concat modules.*2 ≡ₚ concat acc.*2 ++ l.
Proof.
  revert acc. induction l as [|cl l IH]; intros acc; simpl.
  - intros [= <-]. by rewrite app_nil_r.
  - intros (acc1 & (p0 & _ & [= <-])%bind_Done & Hrest)%bind_Done.
    rewrite (IH _ Hrest), setdefault_append_values, <- app_assoc. done.
Qed.

Lemma groups_written_classes_once W model groups :
  groups_written W model groups →
  (groups ≫= fun g => sec_class <$> grp_classes g) ≡ₚ dict_keys model.
Proof.
  intros (modules & Hmodules & Hgroups & _).
  apply (group_loop_values W) in Hmodules. simpl in Hmodules.
  rewrite <- Hmodules, <- (sorted_by_perm fst modules).
  fold (sorted_groups modules).
  induction Hgroups as [|[p members] g es gs [_ Hsecs] _ IH]; [done|].
  rewrite bind_cons, IH. csimpl. f_equiv.
  assert (sec_class <$> grp_classes g = sorted_by (class_str W) members)
    as ->; [|apply sorted_by_perm].
  simpl in Hsecs. induction Hsecs as [|cl c cls secs [Hc _] _ IH']; [done|].
  csimpl. by rewrite Hc, IH'.
Qed.

Lemma class_headers_app l1 l2 :
  class_headers (l1 ++ l2) = class_headers l1 ++ class_headers l2.
Proof. apply filter_app. Qed.

Lemma class_headers_section W this_mod c :
  length (class_headers (class_section_chunks W this_mod c).1) = 1.
Proof.
  unfold class_headers, class_section_chunks. cbn [fst].
  rewrite filter_cons. simpl.
  induction (sec_props c) as [|kv props IH]; [done|].
  csimpl. by rewrite filter_cons.
Qed.

Lemma class_headers_group W g :
  length (class_headers (group_section_chunks W g).1)
  = length (grp_classes g).
Proof.
  unfold group_section_chunks. cbn [fst].
  rewrite class_headers_app, length_app.
  assert (class_headers (heading_chunks g) = [])
    as -> by (unfold heading_chunks; by destruct (grp_heading g)).
  cbn [length Nat.add]. induction (grp_classes g) as [|c cs IH]; [done|].
  rewrite bind_cons, class_headers_app, length_app, IH.
  by rewrite (class_headers_section W (first_two_segments (grp_path g)) c).
Qed.

Lemma class_headers_document W groups :
  length (class_headers (document_chunks W groups).1)
  = length (groups ≫= fun g => sec_class <$> grp_classes g).
Proof.
  unfold document_chunks. cbn [fst].
  change (class_headers (DOCUMENT_HEADER :: ?l)) with (class_headers l).
  induction groups as [|g gs IH]; [done|].
  rewrite !bind_cons, class_headers_app, !length_app, IH, length_fmap.
  by rewrite (class_headers_group W g).
Qed.

(** X7: Each class of the model gets one section: the classes of the groups,
    taken together, are the keys of the model, each once, and each document
    has as many class headings as the model has classes. *)
Theorem every_class_once (W : world) (model : model_t) (b : buffers) :
  write_chunks W model = Done b →
  ∃ groups : list group_section,
    b = document_chunks W groups
    ∧ (groups ≫= fun g => sec_class <$> grp_classes g) ≡ₚ dict_keys model
    ∧ length (class_headers b.1) = length model
    ∧ length (class_headers b.2) = length model.
Proof.
  intros Hb. pose proof Hb as (groups & Hgroups & ->)%write_chunks_spec.
  exists groups. apply groups_written_classes_once in Hgroups as Hperm.
  assert (length (class_headers (document_chunks W groups).1) = length model)
    as Hfull.
  { rewrite class_headers_document, Hperm. unfold dict_keys.
    by rewrite length_fmap. }
  split_and!; [done..|].
  rewrite <- Hfull, document_stripped. unfold class_headers.
  generalize (document_chunks W groups).1. intros l.
  induction l as [|c l IH]; [done|]. csimpl.
  rewrite !filter_cons. destruct c; simpl; by rewrite ?IH.
Qed.

Lemma every_class_once_witness :
  ∃ b,
    write_chunks otio_world otio_model = Done b
    ∧ ∃ groups : list group_section,
        b = document_chunks otio_world groups
        ∧ (groups ≫= fun g => sec_class <$> grp_classes g)
          ≡ₚ dict_keys otio_model
        ∧ length (class_headers b.1) = length otio_model
        ∧ length (class_headers b.2) = length otio_model.
Proof.
  eexists. split; [vm_compute; reflexivity|].
  apply (every_class_once otio_world otio_model). vm_compute. reflexivity.
Defined.

(** ** Diagnostics *)











(** ** A search that finds nothing *)

Lemma search_children_None W cl rec subs :
  (∀ c S0 S1, rec c S0 = Done (None, S1) → nothing_found W cl S0 c S1) →
  ∀ S S',
    search_children rec subs S = Done (None, S') →
    S ⊆ S'
    ∧ (∀ c, c ∈ subs → c ∈ S')
    ∧ ∀ x, x ∈ S' → x ∉ S → ¬ holds W x cl ∧ ∀ c, member W x c → c ∈ S'.
Proof.
  intros Hrec. induction subs as [|c subs IH]; intros S S'; simpl.
  - intros [= <-]. split_and!; [done|by intros ? ?%elem_of_nil|done].
  - case_bool_decide as Hc.
    + intros (Hsub & Hin & Hclosed)%IH. split_and!; [done| |done].
      intros c' [->|?]%elem_of_cons; [by apply Hsub|by apply Hin].
    + intros ([[name|] S1] & Hcall & Hrest)%bind_Done; [done|].
      apply Hrec in Hcall as (Hsub1 & Hc1 & Hmem1 & Hclosed1).
      apply IH in Hrest as (Hsub & Hin & Hclosed). split_and!.
      * set_solver.
      * intros c' [->|?]%elem_of_cons; [set_solver|by apply Hin].
      * intros x Hx HxS.
        destruct (decide (x ∈ S1)) as [Hx1|Hx1]; [|by apply Hclosed].
        destruct (decide (x = c)) as [->|Hne].
        -- split; [done|]. intros c' Hc'. by apply Hsub, Hmem1.
        -- destruct (Hclosed1 x Hx1) as [? Hmem]; [set_solver|].
           split; [done|]. intros c' Hc'. by apply Hsub, Hmem.
Qed.

Lemma search_None W fuel cl m S S' :
  _search_mod_recursively W fuel cl m S = Done (None, S') →
  nothing_found W cl S m S'.
Proof.
  revert m S S'. induction fuel as [|fuel IH]; intros m S S'; [done|].
  cbn [_search_mod_recursively]. case_bool_decide as Hholds; [done|].
  intros (Hsub & Hin & Hclosed)%(search_children_None W cl); [|exact IH].
  split_and!; [done..| |done].
  intros c Hc. by apply Hin, elem_of_child_modules.
Qed.

Lemma searched_in_vain_reach W cl S a x :
  searched_in_vain W cl S →
  ¬ holds W a cl → (∀ c, member W a c → c ∈ S) →
  reachable W (IGNORE_MODS W) a x → ¬ holds W x cl.
Proof.
  intros [_ Hclosed] Ha Hmem Hreach. revert Ha Hmem.
  induction Hreach as [|a b x [Hab Hb] _ IH]; [done|].
  intros _ Hmem. destruct (Hclosed b) as [? ?]; [by apply Hmem|done|].
  by apply IH.
Qed.

Lemma search_each_None W cl mods S :
  search_each W cl mods S = Done None →
  searched_in_vain W cl S →
  ∀ M x, M ∈ mods → reachable W (IGNORE_MODS W) M x → ¬ holds W x cl.
Proof.
  revert S. induction mods as [|m mods IH]; intros S; simpl;
    [by intros _ _ ?? ?%elem_of_nil|].
  intros ([[name|] S'] & Hcall & Hrest)%bind_Done; [done|].
  apply search_None in Hcall as (Hsub & Hm & Hmem & Hclosed).
  intros [Hign Hvain].
  assert (searched_in_vain W cl S') as Hvain'.
  { split; [set_solver|]. intros x Hx Hxi.
    destruct (decide (x ∈ S)) as [HxS|HxS]; [|by apply Hclosed].
    destruct (Hvain x HxS Hxi) as [? Hmemx]. split; [done|].
    intros c Hc. by apply Hsub, Hmemx. }
  intros M x [->|HM]%elem_of_cons Hreach.
  - by eapply searched_in_vain_reach.
  - by eapply IH.
Qed.

Lemma search_each_Some W cl mods S name :
  search_each W cl mods S = Done (Some name) →
  IGNORE_MODS W ⊆ S →
  ∃ M x, M ∈ mods ∧ reachable W (IGNORE_MODS W) M x ∧ holds W x cl
         ∧ name = mod_name (module_at W x).
Proof.
  revert S. induction mods as [|m mods IH]; intros S; simpl; [done|].
  intros ([r S'] & Hcall & Hrest)%bind_Done HS.
  apply search_sound in Hcall as [Hsub Hfound].
  destruct r as [name'|].
  - injection Hrest as ->.
    destruct (Hfound name eq_refl) as (x & Hx & Hholds & -> & _).
    exists m, x. split_and!; [by left| |done..].
    by eapply reachable_weaken.
  - destruct (IH S' Hrest) as (M & x & ? & ?); [set_solver|].
    exists M, x. by split; [right|].
Qed.

(** X6: The remapping falls back to the declaring namespace only when the
    search has nothing to find: when some namespace reachable from a
    canonical one, without entering the opaque ones, holds the class, the
    class is documented under the name of such a namespace. *)
Theorem remapping_finds_a_holder (W : world) (cl : class_id) :
  cl_module (class_at W cl) ∈ OPAQUE_MODULE_NAMES →
  (∃ M x, M ∈ SEARCH_MODULES W ∧ reachable W (IGNORE_MODS W) M x
          ∧ holds W x cl) →
  ∃ M y, M ∈ SEARCH_MODULES W ∧ reachable W (IGNORE_MODS W) M y
         ∧ holds W y cl
         ∧ effective_namespace W cl = Done (mod_name (module_at W y)).
Proof.
  intros Hopaque (M & x & HM & Hreach & Hholds).
  unfold effective_namespace, _remap_to_python_modules.
  rewrite bool_decide_eq_true_2 by done.
  destruct (search_each_returns W cl (SEARCH_MODULES W) (IGNORE_MODS W))
    as [[name|] Hsearch]; rewrite Hsearch; simpl.
  - apply search_each_Some in Hsearch as (M' & y & ? & ? & ? & ->); [|done].
    by exists M', y.
  - exfalso. eapply (search_each_None W cl); [exact Hsearch| |exact HM| |];
      [|exact Hreach|exact Hholds].
    split; [done|]. by intros y Hy Hy'.
Qed.

Lemma remapping_finds_a_holder_witness :
  ∃ M y,
    M ∈ SEARCH_MODULES nested_world
    ∧ reachable nested_world (IGNORE_MODS nested_world) M y
    ∧ holds nested_world y 7
    ∧ effective_namespace nested_world 7
      = Done (mod_name (module_at nested_world y)).
Proof.
  apply (remapping_finds_a_holder nested_world 7).
  - unfold OPAQUE_MODULE_NAMES. compute_done.
  - exists 1, 6. split_and!.
    + unfold SEARCH_MODULES. compute_done.
    + apply rtc_once.
      split; [unfold member; compute_done|unfold IGNORE_MODS; set_solver].
    + compute_done.
Defined.

(** ** Path segments, joined and split *)

Lemma concat_dot_cons x y l :
  String.concat "." (x :: y :: l) = x +:+ "." +:+ String.concat "." (y :: l).
Proof. done. Qed.

Lemma join_split s : String.concat "." (split_dot s) = s.
Proof.
  induction s as [|c s IH]; [done|]. simpl.
  destruct (split_dot_pieces s) as (piece & pieces & Hs & _).
  rewrite Hs in *. destruct (decide (c = "."%char)) as [->|Hc].
  - rewrite concat_dot_cons, IH. done.
  - destruct pieces as [|y pieces].
    + simpl in *. by rewrite IH.
    + rewrite concat_dot_cons in *. by rewrite <- IH.
Qed.

Lemma split_dot_free x : dot_free x → split_dot x = [x].
Proof.
  induction x as [|c x IH]; [done|]. intros [Hc Hx]. simpl.
  rewrite decide_False by done. by rewrite (IH Hx).
Qed.

Lemma split_dot_app x rest :
  dot_free x → split_dot (x +:+ "." +:+ rest) = x :: split_dot rest.
Proof.
  induction x as [|c x IH]; [done|]. intros [Hc Hx]. simpl.
  rewrite decide_False by done. by rewrite (IH Hx).
Qed.

Lemma split_join l :
  l ≠ [] → Forall dot_free l → split_dot (String.concat "." l) = l.
Proof.
  induction l as [|x l IH]; [done|]. intros _ [Hx Hl]%Forall_cons.
  destruct l as [|y l]; [by apply split_dot_free|].
  rewrite concat_dot_cons, split_dot_app by done. by rewrite IH.
Qed.

Lemma string_app_assoc (a b c : string) : (a +:+ b) +:+ c = a +:+ b +:+ c.
Proof.
  induction a as [|x a IH]; [done|].
  change (String x ((a +:+ b) +:+ c) = String x (a +:+ b +:+ c)).
  by rewrite IH.
Qed.

Lemma concat_dot_app l1 l2 :
  l1 ≠ [] → l2 ≠ [] →
  String.concat "." (l1 ++ l2)
  = String.concat "." l1 +:+ "." +:+ String.concat "." l2.
Proof.
  induction l1 as [|x l1 IH]; [done|]. intros _ Hl2.
  destruct l1 as [|y l1].
  - destruct l2; [done|]. done.
  - rewrite <- app_comm_cons. cbn [app] in *.
    rewrite !concat_dot_cons, IH by done.
    by rewrite !string_app_assoc.
Qed.

(** X10: The heading name [".".join(path.split('.')[:2])] is the path cut before
    its third segment: joining all the segments gives the path back; a path
    of one or two segments is its own heading name; a longer path is the
    heading name, a dot and the remaining segments; and the heading name
    splits into the first two segments again, so that taking the heading
    name of a heading name changes nothing. *)
Theorem heading_name (s : string) :
  String.concat "." (split_dot s) = s
  ∧ split_dot (first_two_segments s) = take 2 (split_dot s)
  ∧ first_two_segments (first_two_segments s) = first_two_segments s
  ∧ (length (split_dot s) ≤ 2 → first_two_segments s = s)
  ∧ (2 < length (split_dot s) →
     s = first_two_segments s +:+ "." +:+
         String.concat "." (drop 2 (split_dot s))).
Proof.
  pose proof (join_split s) as Hjoin.
  destruct (split_dot_pieces s) as (piece & pieces & Hs & Hfree).
  assert (split_dot (first_two_segments s) = take 2 (split_dot s)) as Hsplit.
  { unfold first_two_segments. rewrite Hs. apply split_join; [done|].
    by apply Forall_take. }
  split_and!; [done..| | |].
  - unfold first_two_segments at 1. by rewrite Hsplit, take_take.
  - intros Hlen. unfold first_two_segments.
    by rewrite take_ge.
  - intros Hlen. rewrite <- Hjoin at 1.
    rewrite <- (take_drop 2 (split_dot s)) at 1.
    unfold first_two_segments. apply concat_dot_app.
    + rewrite Hs. done.
    + intros Hnil%(f_equal length). rewrite length_drop in Hnil.
      change (length (@nil string)) with 0 in Hnil. lia.
Qed.

Lemma heading_name_witness :
  first_two_segments "opentimelineio.schema" = "opentimelineio.schema"
  ∧ "opentimelineio.schema.clip"
    = first_two_segments "opentimelineio.schema.clip" +:+ "." +:+
      String.concat "." (drop 2 (split_dot "opentimelineio.schema.clip")).
Proof.
  destruct (heading_name "opentimelineio.schema") as (_ & _ & _ & Hshort & _).
  destruct (heading_name "opentimelineio.schema.clip")
    as (_ & _ & _ & _ & Hlong).
  split; [apply Hshort|apply Hlong]; vm_compute; lia.
Defined.

(** ** A model without a label *)

Lemma write_class_Raised W model this_mod cl b e :
  cl ∈ dict_keys model →
  write_class W model this_mod cl b = Raised e →
  e = KeyError "OTIO_SCHEMA"
  ∧ ∃ entry, dict_get cl model = Some entry
             ∧ dict_get "OTIO_SCHEMA" entry = None.
Proof.
  intros (entry & Hentry)%dict_keys_get. unfold write_class. rewrite Hentry.
  destruct (dict_get "OTIO_SCHEMA" entry) eqn:Hlabel; [done|].
  intros [= <-]. split; [done|]. by exists entry.
Qed.

Lemma write_class_terminated W model this_mod cl b :
  terminated (write_class W model this_mod cl b).
Proof. unfold write_class. by repeat case_match. Qed.

Lemma write_group_terminated W model group st :
  terminated (write_group W model group st).
Proof.
  destruct group as [path members], st as [cur b]. unfold write_group.
  case_bool_decide.
  all: apply bind_terminated; [|done].
  all: apply (for_each_terminated (fun _ => True)); [|done..].
  all: intros; apply write_class_terminated.
Qed.

Lemma write_group_Raised W model path members st e :
  (∀ cl, cl ∈ members → cl ∈ dict_keys model) →
  write_group W model (path, members) st = Raised e →
  e = KeyError "OTIO_SCHEMA"
  ∧ ∃ cl entry, dict_get cl model = Some entry
                ∧ dict_get "OTIO_SCHEMA" entry = None.
Proof.
  intros Hmembers. destruct st as [cur b]. unfold write_group.
  case_bool_decide.
  all: destruct (for_each _ _ _) as [b'| |] eqn:Hloop; simpl; [done| |done].
  all: intros [= <-].
  all: apply for_each_Raised in Hloop
         as (cl & b0 & Hcl%elem_of_sorted_by & Hraise).
  all: apply write_class_Raised in Hraise as [-> (entry & ? & ?)];
         [|by apply Hmembers].
  all: split; [done|]; by exists cl, entry.
Qed.

Lemma write_chunks_terminated W model : terminated (write_chunks W model).
Proof.
  unfold write_chunks.
  destruct (group_classes_returns W model) as [modules ->]. simpl.
  apply bind_terminated; [|by intros [cur b] _].
  apply (for_each_terminated (fun _ => True)); [|done..].
  intros. apply write_group_terminated.
Qed.

Lemma write_chunks_Raised W model e :
  write_chunks W model = Raised e →
  e = KeyError "OTIO_SCHEMA"
  ∧ ∃ cl entry, dict_get cl model = Some entry
                ∧ dict_get "OTIO_SCHEMA" entry = None.
Proof.
  unfold write_chunks.
  destruct (group_classes_returns W model) as [modules Hmodules].
  rewrite Hmodules. simpl.
  destruct (for_each _ _ _) as [[cur b]| |] eqn:Hloop; simpl; [done| |done].
  intros [= <-].
  apply for_each_Raised in Hloop
    as ([path members] & st & Hin%elem_of_sorted_by & Hraise).
  apply write_group_Raised in Hraise; [done|].
  apply group_classes_spec in Hmodules as (_ & _ & Hmembers).
  destruct (Hmembers path members Hin) as [-> _].
  unfold classes_under. by intros cl [_ ?]%list_elem_of_filter.
Qed.

(** X9: The renderer on any model: it never runs forever, and it raises
    exactly when the entry of some class of the model has no ["OTIO_SCHEMA"],
    the one key it subscripts; the exception is then that [KeyError], and
    it raises nothing else. *)
Theorem rendering_raises (W : world) (model : model_t) :
  terminated (_write_documentation W model)
  ∧ ((∃ cl entry, dict_get cl model = Some entry
                  ∧ dict_get "OTIO_SCHEMA" entry = None)
     ↔ _write_documentation W model = Raised (KeyError "OTIO_SCHEMA"))
  ∧ (∀ e, _write_documentation W model = Raised e →
          e = KeyError "OTIO_SCHEMA").
Proof.
  pose proof (write_chunks_terminated W model) as Hterm.
  pose proof (write_chunks_Raised W model) as Hraised.
  unfold _write_documentation.
  destruct (write_chunks W model) as [b|e|] eqn:Hb; simpl.
  - split_and!; [done| |done]. split; [|done].
    intros (cl & entry & Hentry & Hlabel). exfalso.
    apply write_chunks_spec in Hb as (groups & Hgroups & _).
    destruct (groups_written_cover W model groups cl Hgroups)
      as (g & Hg & Hcl).
    { apply dict_keys_get. by eexists. }
    destruct (groups_written_classes W model groups g Hgroups Hg)
      as (_ & _ & Hsecs).
    apply list_elem_of_fmap in Hcl as (c & -> & Hc).
    rewrite Forall_forall in Hsecs.
    destruct (Hsecs c Hc) as (_ & entry' & Hentry' & Hlabel' & _).
    congruence.
  - destruct (Hraised e eq_refl) as [-> Hex].
    split_and!; [done|by split|by intros ? [= <-]].
  - by destruct Hterm.
Qed.

Lemma rendering_raises_witness :
  _write_documentation nested_world [(10, [("name", PyStr "The name.")])]
  = Raised (KeyError "OTIO_SCHEMA").
Proof.
  destruct (rendering_raises nested_world
              [(10, [("name", PyStr "The name.")])]) as (_ & [Hraise _] & _).
  apply Hraise. by exists 10, [("name", PyStr "The name.")].
Defined.

(** ** The entry point *)

Lemma rsplit_last_dot_None s : rsplit_last_dot s = None ↔ dot_free s.
Proof.
  induction s as [|c s IH]; [done|]. simpl.
  destruct (rsplit_last_dot s) as [[p q]|].
  - split; [done|]. intros [_ Hs]. by apply IH in Hs.
  - destruct (decide (c = "."%char)) as [->|Hc].
    + split; [done|]. by intros [? _].
    + split; [|done]. intros _. split; [done|]. by apply IH.
Qed.

Lemma rsplit_last_dot_Some s p q :
  rsplit_last_dot s = Some (p, q) ↔ s = p +:+ "." +:+ q ∧ dot_free q.
Proof.
  revert p. induction s as [|c s IH]; intros p.
  { simpl. split; [done|]. intros [Heq _]. by destruct p. }
  simpl. destruct (rsplit_last_dot s) as [[p' q']|] eqn:Hs.
  - split.
    + intros [= <- <-]. by destruct (proj1 (IH p') eq_refl) as [-> Hq].
    + intros [Heq Hq]. destruct p as [|c' p].
      * injection Heq as -> ->. apply rsplit_last_dot_None in Hq.
        change (rsplit_last_dot q = Some (p', q')) in Hs. congruence.
      * injection Heq as -> Heq.
        assert (Some (p', q') = Some (p, q)) as [= -> ->] by by apply IH.
        done.
  - apply rsplit_last_dot_None in Hs.
    destruct (decide (c = "."%char)) as [->|Hc].
    + split.
      * by intros [= <- <-].
      * intros [Heq Hq]. destruct p as [|c' p].
        -- by injection Heq as ->.
        -- injection Heq as Hc ->. subst c'. by apply dot_free_no_dot in Hs.
    + split; [done|]. intros [Heq Hq]. destruct p as [|c' p].
      * by injection Heq as -> ->.
      * injection Heq as -> ->. by apply dot_free_no_dot in Hs.
Qed.

Lemma only_fields_differs p q : p +:+ "-only-fields." +:+ q ≠ p +:+ "." +:+ q.
Proof.
  induction p as [|c p IH]; [done|]. intros Heq. by injection Heq as Heq.
Qed.

Lemma output_only_fields_Some output only :
  output_only_fields output = Some only
  ↔ ∃ prefix suffix,
      output = prefix +:+ "." +:+ suffix ∧ dot_free suffix
      ∧ only = prefix +:+ "-only-fields." +:+ suffix.
Proof.
  unfold output_only_fields, rsplit_dot_1.
  destruct (rsplit_last_dot output) as [[p q]|] eqn:Hsplit.
  - apply rsplit_last_dot_Some in Hsplit as [-> Hq]. split.
    + intros [= <-]. by exists p, q.
    + intros (p' & q' & Heq & Hq' & ->).
      assert (Some (p, q) = Some (p', q')) as [= <- <-]; [|done].
      rewrite <- (proj2 (rsplit_last_dot_Some (p +:+ "." +:+ q) p q))
        by done.
      by apply rsplit_last_dot_Some.
  - split; [done|]. intros (p & q & Heq & Hq & _).
    assert (rsplit_last_dot output = Some (p, q)) as Hsome
      by by apply rsplit_last_dot_Some.
    congruence.
Qed.

Lemma output_only_fields_None output :
  output_only_fields output = None ↔ dot_free output.
Proof.
  rewrite <- rsplit_last_dot_None. unfold output_only_fields, rsplit_dot_1.
  by destruct (rsplit_last_dot output) as [[p q]|].
Qed.

(** X12: The name of the second file: [output.rsplit('.', 1)] cuts [output] at
    its last dot and nowhere else, so the fields-only document goes to
    [output] with ["-only-fields"] put before that dot, a name that is
    never [output] itself; an [output] without a dot has no such name. *)
Theorem only_fields_name (output : string) :
  String.concat "." (rsplit_dot_1 output) = output
  ∧ (output_only_fields output = None ↔ dot_free output)
  ∧ (∀ only, output_only_fields output = Some only
             ↔ ∃ prefix suffix,
                 output = prefix +:+ "." +:+ suffix ∧ dot_free suffix
                 ∧ only = prefix +:+ "-only-fields." +:+ suffix)
  ∧ (∀ only, output_only_fields output = Some only → only ≠ output).
Proof.
  split_and!.
  - unfold rsplit_dot_1.
    destruct (rsplit_last_dot output) as [[p q]|] eqn:Hsplit; [|done].
    by apply rsplit_last_dot_Some in Hsplit as [-> _].
  - apply output_only_fields_None.
  - apply output_only_fields_Some.
  - intros only (p & q & -> & _ & ->)%output_only_fields_Some.
    apply only_fields_differs.
Qed.

Lemma only_fields_name_witness :
  output_only_fields "docs/v0.15/schema.md"
  = Some "docs/v0.15/schema-only-fields.md"
  ∧ "docs/v0.15/schema-only-fields.md" ≠ "docs/v0.15/schema.md"
  ∧ output_only_fields "schema" = None.
Proof.
  destruct (only_fields_name "docs/v0.15/schema.md") as (_ & _ & Hsome & Hne).
  destruct (only_fields_name "schema") as (_ & Hnone & _).
  split_and!.
  - apply Hsome. exists "docs/v0.15/schema", "md". by repeat split.
  - apply Hne. reflexivity.
  - apply Hnone. by repeat split.
Defined.


Lemma temporary_only_fields env :
  output_only_fields (temporary_name env)
  = Some (env_tmp_stem env +:+ "otio_serialized_schema-only-fields.md").
Proof.
  apply output_only_fields_Some.
  exists (env_tmp_stem env +:+ "otio_serialized_schema"), "md".
  unfold temporary_name. rewrite !string_app_assoc. by repeat split.
Qed.

(** What a run that gets to write leaves behind, from the state [os0] in
    which [output] was chosen. *)
Lemma main_writes W env args os with_docs without_docs output os0 only :
  generate_and_write_documentation W = Done (with_docs, without_docs) →
  args_dryrun args = false →
  choose_output env args os = (output, os0) →
  output_only_fields output = Some only →
  env_writable env output = true → env_writable env only = true →
  ∃ os',
    main W env args os = (os', Returned)
    ∧ os_files os' !! output = Some with_docs
    ∧ os_files os' !! only = Some without_docs
    ∧ (∀ p, p ≠ output → p ≠ only → os_files os' !! p = os_files os0 !! p)
    ∧ os_stdout os' = os_stdout os0 ++ [wrote_documentation output only].
Proof.
  intros Hdocs Hdry Hout Honly Hw1 Hw2.
  assert (only ≠ output) as Hdiff.
  { apply output_only_fields_Some in Honly as (p & q & -> & _ & ->).
    apply only_fields_differs. }
  unfold main, write_file. rewrite Hdocs, Hdry, Hout, Hw1, Honly. simpl.
  rewrite Hw2. eexists. split; [done|]. simpl. split_and!.
  - rewrite lookup_insert_ne by done. by rewrite lookup_insert_eq.
  - by rewrite lookup_insert_eq.
  - intros p Hp1 Hp2. by rewrite !lookup_insert_ne.
  - done.
Qed.

(** X13: A run that writes: with [--output] naming a path with a dot, both
    paths writable and the pipeline returning, [main] returns normally,
    leaves the full document at [output] and the fields-only document at
    the second name, changes no other file and prints the one line that
    names both. *)
Theorem main_writes_both_documents
    (W : world) (env : os_env) (args : arguments) (os : os_state)
    (with_docs without_docs output only : string) :
  generate_and_write_documentation W = Done (with_docs, without_docs) →
  args_dryrun args = false →
  args_output args = Some output → output ≠ "" →
  output_only_fields output = Some only →
  env_writable env output = true → env_writable env only = true →
  ∃ os',
    main W env args os = (os', Returned)
    ∧ os_files os' !! output = Some with_docs
    ∧ os_files os' !! only = Some without_docs
    ∧ (∀ p, p ≠ output → p ≠ only → os_files os' !! p = os_files os !! p)
    ∧ os_stdout os' = os_stdout os ++ [wrote_documentation output only].
Proof.
  intros Hdocs Hdry Hout Hne Honly Hw1 Hw2.
  apply (main_writes W env args os); try done.
  unfold choose_output. rewrite Hout. by destruct output.
Qed.

Lemma main_writes_both_documents_witness :
  ∃ with_docs without_docs,
    generate_and_write_documentation otio_world
    = Done (with_docs, without_docs)
    ∧ ∃ os',
        main otio_world example_env (to_file "docs/schema.md") example_os
        = (os', Returned)
        ∧ os_files os' !! "docs/schema.md" = Some with_docs
        ∧ os_files os' !! "docs/schema-only-fields.md" = Some without_docs
        ∧ (∀ p, p ≠ "docs/schema.md" → p ≠ "docs/schema-only-fields.md" →
                os_files os' !! p = os_files example_os !! p)
        ∧ os_stdout os'
          = os_stdout example_os
            ++ [wrote_documentation "docs/schema.md"
                  "docs/schema-only-fields.md"].
Proof.
  eexists _, _. split; [vm_compute; reflexivity|].
  apply (main_writes_both_documents otio_world example_env
           (to_file "docs/schema.md") example_os);
    [vm_compute; reflexivity|done..].
Defined.

(** X14: An [--output] without a dot: the full document is written to it, then
    unpacking [output.rsplit('.', 1)] into two names raises [ValueError];
    no fields-only document is written and nothing is printed. *)
Theorem main_output_without_extension
    (W : world) (env : os_env) (args : arguments) (os : os_state)
    (with_docs without_docs output : string) :
  generate_and_write_documentation W = Done (with_docs, without_docs) →
  args_dryrun args = false →
  args_output args = Some output → output ≠ "" →
  dot_free output → env_writable env output = true →
  main W env args os
  = ({| os_files := <[output := with_docs]> (os_files os);
        os_stdout := os_stdout os |}, Uncaught ValueError).
Proof.
  intros Hdocs Hdry Hout Hne Hfree%output_only_fields_None Hw.
  unfold main, choose_output, write_file. rewrite Hdocs, Hdry, Hout.
  assert (not_output (Some output) = false) as -> by by destruct output.
  simpl. by rewrite Hw, Hfree.
Qed.

Lemma main_output_without_extension_witness :
  ∃ with_docs without_docs,
    generate_and_write_documentation otio_world
    = Done (with_docs, without_docs)
    ∧ main otio_world example_env (to_file "SCHEMA") example_os
      = ({| os_files := <["SCHEMA" := with_docs]> (os_files example_os);
            os_stdout := os_stdout example_os |}, Uncaught ValueError).
Proof.
  eexists _, _. split; [vm_compute; reflexivity|].
  eapply (main_output_without_extension otio_world example_env
            (to_file "SCHEMA") example_os _ _ "SCHEMA");
    [vm_compute; reflexivity|done..|by repeat split|done].
Defined.

(** X15: Without [--output], and with an empty one: the full document goes to
    the temporary file, the fields-only document beside it under the name
    with ["-only-fields"] before [".md"], whatever dots the directory or the
    random part of the name contain, so that the unpacking never fails
    here. *)
Theorem main_default_output
    (W : world) (env : os_env) (args : arguments) (os : os_state)
    (with_docs without_docs : string) :
  generate_and_write_documentation W = Done (with_docs, without_docs) →
  args_dryrun args = false →
  args_output args = None ∨ args_output args = Some "" →
  env_writable env (env_tmp_stem env +:+ "otio_serialized_schema.md")
  = true →
  env_writable env
    (env_tmp_stem env +:+ "otio_serialized_schema-only-fields.md") = true →
  ∃ os',
    main W env args os = (os', Returned)
    ∧ os_files os' !! (env_tmp_stem env +:+ "otio_serialized_schema.md")
      = Some with_docs
    ∧ os_files os'
        !! (env_tmp_stem env +:+ "otio_serialized_schema-only-fields.md")
      = Some without_docs
    ∧ (∀ p, p ≠ env_tmp_stem env +:+ "otio_serialized_schema.md" →
            p ≠ env_tmp_stem env +:+ "otio_serialized_schema-only-fields.md" →
            os_files os' !! p = os_files os !! p)
    ∧ os_stdout os'
      = os_stdout os
        ++ [wrote_documentation
              (env_tmp_stem env +:+ "otio_serialized_schema.md")
              (env_tmp_stem env +:+ "otio_serialized_schema-only-fields.md")].
Proof.
  intros Hdocs Hdry Hout Hw1 Hw2.
  destruct (main_writes W env args os with_docs without_docs
              (temporary_name env) (create_temporary env os)
              (env_tmp_stem env +:+ "otio_serialized_schema-only-fields.md"))
    as (os' & Hmain & Hfull & Hshort & Hframe & Hprinted); try done.
  { unfold choose_output. by destruct Hout as [-> | ->]. }
  { apply temporary_only_fields. }
  exists os'. split_and!; try done.
  intros p Hp1 Hp2. rewrite (Hframe p) by done.
  unfold create_temporary, temporary_name. simpl.
  by rewrite lookup_insert_ne.
Qed.

Lemma main_default_output_witness :
  ∃ with_docs without_docs,
    generate_and_write_documentation otio_world
    = Done (with_docs, without_docs)
    ∧ ∃ os',
        main otio_world example_env by_default example_os = (os', Returned)
        ∧ os_files os' !! "/tmp/run.1/tmpab12cdotio_serialized_schema.md"
          = Some with_docs
        ∧ os_files os'
            !! "/tmp/run.1/tmpab12cdotio_serialized_schema-only-fields.md"
          = Some without_docs
        ∧ os_files os' !! "notes.txt" = Some "keep".
Proof.
  eexists _, _. split; [vm_compute; reflexivity|].
  edestruct (main_default_output otio_world example_env by_default example_os)
    as (os' & Hmain & Hfull & Hshort & Hframe & _);
    [vm_compute; reflexivity|done|by left|done..|].
  exists os'. split_and!; [done..|]. by rewrite Hframe.
Defined.




